(** * Verification of the MemeJak puzzle engine and leaderboard

    Shallow embedding of [src/shared/puzzle.ts] (seeded LCG, Fisher-Yates
    shuffle, solvability predicate, moves), of the hint heuristic of the game
    client and of the score-submission handler of the server. *)

From Stdlib Require Import Ascii String.
From Stdlib Require Import ZArith List Permutation Sorted Lia Bool RelationClasses.
From Stdlib Require Finite.
Import ListNotations.
Open Scope Z_scope.

(** ** JavaScript arrays

    A JS value read from a [number[]] is a number or [undefined] ([None]).
    An array holds its elements (indices [0 .. length-1]) and the ordinary
    properties keyed by negative integers that a write [a[j] = v] with
    [j < 0] creates; a later read [a[j]] sees them, the spread [[...a]], [length],
    [indexOf] and [every] do not. *)

Definition jsval := option Z.

Record jsarray := mkArr { elems : list jsval; props : list (Z * jsval) }.

Fixpoint list_set {A} (l : list A) (n : nat) (x : A) : list A :=
  match l, n with
  | [], _ => []
  | _ :: t, O => x :: t
  | h :: t, S n' => h :: list_set t n' x
  end.

Fixpoint prop_get (ps : list (Z * jsval)) (k : Z) : jsval :=
  match ps with
  | [] => None
  | (k', v) :: ps' => if Z.eqb k k' then v else prop_get ps' k
  end.

(** [a[k]] for an integer [k]. *)
Definition arr_get (a : jsarray) (k : Z) : jsval :=
  if k <? 0 then prop_get (props a) k
  else nth (Z.to_nat k) (elems a) None.

(** [a[k] = v] for an integer [k]: in range it overwrites, past the end it
    extends the array with holes (read as [undefined]), below zero it sets a
    property. *)
Definition arr_set (a : jsarray) (k : Z) (v : jsval) : jsarray :=
  if k <? 0 then mkArr (elems a) ((k, v) :: props a)
  else if k <? Z.of_nat (length (elems a))
  then mkArr (list_set (elems a) (Z.to_nat k) v) (props a)
  else mkArr (app (elems a) (app (repeat None (Z.to_nat k - length (elems a))%nat) [v]))
             (props a).

(** [[...l]]: a fresh array with the elements of [l]. *)
Definition arr_of (l : list jsval) : jsarray := mkArr l [].

(** [l.indexOf(x)] for a number [x] (strict equality: [undefined] never matches). *)
Fixpoint index_of_from (l : list jsval) (x : Z) (i : Z) : Z :=
  match l with
  | [] => -1
  | Some y :: t => if Z.eqb y x then i else index_of_from t x (i + 1)
  | None :: t => index_of_from t x (i + 1)
  end.

Definition index_of (l : list jsval) (x : Z) : Z := index_of_from l x 0.

(** [0 .. n-1] *)
Definition zseq (n : Z) : list Z := map Z.of_nat (seq 0 (Z.to_nat n)).

Module Puzzle.

(** ** Seeded random numbers ([createSeededRandom])

    [currentSeed = (currentSeed * 1664525 + 1013904223) % 2 ** 32] with the
    truncating JS remainder.  For an integer seed with [|seed| < 2^32] every
    intermediate value is an integer below [2^53], so the double arithmetic
    is exact and equals this integer arithmetic; the state then stays in
    [(-2^32, 2^32)]. *)
Definition lcg_next (s : Z) : Z := Z.rem (s * 1664525 + 1013904223) (2 ^ 32).

(** [Math.floor(rng.next() * (i + 1))] where [rng.next()] returned
    [s / 2^32] for the new state [s]: the product [s * (i+1) / 2^32] is exact
    for [i + 1 <= 2^21], so the floor is the floor division. *)
Definition draw_index (s : Z) (i : Z) : Z := Z.div (s * (i + 1)) (2 ^ 32).

(** ** [seededShuffle]: the loop body for [i = k], then [k-1], down to [1]. *)
Fixpoint fisher_yates (k : nat) (a : jsarray) (rng : Z) : jsarray * Z :=
  match k with
  | O => (a, rng)
  | S k' =>
      let i := Z.of_nat k in
      let rng' := lcg_next rng in
      let j := draw_index rng' i in
      let temp := arr_get a i in
      let a1 := arr_set a i (arr_get a j) in
      let a2 := arr_set a1 j temp in
      fisher_yates k' a2 rng'
  end.

(** Returns the shuffled copy and the generator state after the shuffle. *)
Definition seededShuffle (array : list jsval) (rng : Z) : jsarray * Z :=
  fisher_yates (length array - 1)%nat (arr_of array) rng.

(** ** Solvability *)

(** Inversions among the defined, non-empty values: for each [i], the later
    [j] whose value is smaller. *)
Fixpoint count_after (x : Z) (empty : Z) (l : list jsval) : Z :=
  match l with
  | [] => 0
  | Some y :: t =>
      (if Z.eqb y empty then 0 else if x >? y then 1 else 0)
      + count_after x empty t
  | None :: t => count_after x empty t
  end.

Fixpoint count_inv (empty : Z) (l : list jsval) : Z :=
  match l with
  | [] => 0
  | Some x :: t =>
      (if Z.eqb x empty then 0 else count_after x empty t) + count_inv empty t
  | None :: t => count_inv empty t
  end.

Definition countInversions (grid : list jsval) (size : Z) : Z :=
  count_inv (size * size - 1) grid.

Definition getEmptyRow (grid : list jsval) (size : Z) : Z :=
  Z.div (index_of grid (size * size - 1)) size.

Definition isSolvable (grid : list jsval) (size : Z) : bool :=
  let inversions := countInversions grid size in
  let emptyRow := getEmptyRow grid size in
  if Z.eqb (Z.rem size 2) 1 then Z.eqb (Z.rem inversions 2) 0
  else Z.eqb (Z.rem (inversions + emptyRow) 2) 0.

(** ** [createShuffledPuzzle] *)

Record PuzzleState := mkPuzzle { grid : list jsval; emptyIndex : Z; size : Z }.

Definition solvedGrid (size : Z) : list jsval := map Some (zseq (size * size)).

(** The fallback: a copy of the solved grid with its last two cells swapped
    when both are defined. *)
Definition fallback_grid (size : Z) : jsarray :=
  let totalTiles := size * size in
  let g := arr_of (solvedGrid size) in
  match arr_get g (totalTiles - 1), arr_get g (totalTiles - 2) with
  | Some last, Some secondLast =>
      arr_set (arr_set g (totalTiles - 1) (Some secondLast))
              (totalTiles - 2) (Some last)
  | _, _ => g
  end.

(** The do-while loop: [n] bounds the remaining iterations (the loop stops
    at the 101st shuffle at the latest, so [n = 100] from [attempts = 0] is
    never exhausted). *)
Fixpoint shuffle_loop (n : nat) (size : Z) (attempts : Z) (rng : Z) : jsarray :=
  let (g, rng') := seededShuffle (solvedGrid size) rng in
  let attempts' := attempts + 1 in
  if attempts' >? 100 then fallback_grid size
  else if isSolvable (elems g) size then g
  else match n with
       | O => g
       | S n' => shuffle_loop n' size attempts' rng'
       end.

Definition createShuffledPuzzle (size : Z) (seed : Z) : PuzzleState :=
  let totalTiles := size * size in
  let emptyIdx := totalTiles - 1 in
  let g := shuffle_loop 100 size 0 seed in
  mkPuzzle (elems g) (index_of (elems g) emptyIdx) size.

(** ** Moves *)

(** [getAdjacentIndices]: up, down, left, right, with [Math.floor] for the
    row and the truncating [%] for the column. *)
Definition getAdjacentIndices (index : Z) (size : Z) : list Z :=
  let row := Z.div index size in
  let col := Z.rem index size in
  (if row >? 0 then [index - size] else [])
  ++ (if row <? size - 1 then [index + size] else [])
  ++ (if col >? 0 then [index - 1] else [])
  ++ (if col <? size - 1 then [index + 1] else []).

Definition isValidMove (puzzle : PuzzleState) (tileIndex : Z) : bool :=
  existsb (Z.eqb (emptyIndex puzzle)) (getAdjacentIndices tileIndex (size puzzle)).

(** [makeMove]: the copy [newGrid] is a fresh array, the input's [grid] is
    only read. *)
Definition makeMove (puzzle : PuzzleState) (tileIndex : Z) : option PuzzleState :=
  if negb (isValidMove puzzle tileIndex) then None
  else
    let newGrid := arr_of (grid puzzle) in
    let tileValue := arr_get newGrid tileIndex in
    let emptyValue := arr_get newGrid (emptyIndex puzzle) in
    match tileValue, emptyValue with
    | Some tv, Some ev =>
        let g1 := arr_set newGrid tileIndex (Some ev) in
        let g2 := arr_set g1 (emptyIndex puzzle) (Some tv) in
        Some (mkPuzzle (elems g2) tileIndex (size puzzle))
    | _, _ => None
    end.

(** [isSolved]: [grid.every((value, index) => value === index)]. *)
Fixpoint all_in_place (l : list jsval) (i : Z) : bool :=
  match l with
  | [] => true
  | Some v :: t => Z.eqb v i && all_in_place t (i + 1)
  | None :: t => false
  end.

Definition isSolved (puzzle : PuzzleState) : bool := all_in_place (grid puzzle) 0.

(** ** Specification-side notions *)

(** Orthogonal adjacency of two cells of the [size x size] grid (no
    wrap-around); both cells lie on the grid. *)
Definition orth_adjacent (size t e : Z) : bool :=
  (0 <=? t) && (t <? size * size) && (0 <=? e) && (e <? size * size)
  && ((Z.eqb (t / size) (e / size) && Z.eqb (Z.abs (t mod size - e mod size)) 1)
      || (Z.eqb (t mod size) (e mod size) && Z.eqb (Z.abs (t / size - e / size)) 1)).

(** The [PuzzleState] invariant: the grid is a permutation of [0 .. N²-1]
    and the cell at [emptyIndex] holds [N²-1]. *)
Definition puzzle_inv (p : PuzzleState) : Prop :=
  Permutation (grid p) (solvedGrid (size p))
  /\ arr_get (arr_of (grid p)) (emptyIndex p) = Some (size p * size p - 1).

End Puzzle.

(** ** The hint heuristic of the game client ([getNextMoveHint]) *)
Module Hint.
Import Puzzle.

(** The candidate tiles, computed inline from [emptyIndex] by the client:
    up, down, left, right. *)
Definition hint_candidates (emptyIndex size : Z) : list Z :=
  let row := Z.div emptyIndex size in
  let col := Z.rem emptyIndex size in
  (if row >? 0 then [emptyIndex - size] else [])
  ++ (if row <? size - 1 then [emptyIndex + size] else [])
  ++ (if col >? 0 then [emptyIndex - 1] else [])
  ++ (if col <? size - 1 then [emptyIndex + 1] else []).

(** The score [currentDist - newDist] of the loop body; [None] stands for the
    [NaN] that an [undefined] cell produces (every comparison with it is
    false). *)
Definition hint_score (grid : list jsval) (emptyIndex size : Z) (tileIndex : Z)
  : option Z :=
  match arr_get (arr_of grid) tileIndex with
  | None => None
  | Some targetIndex =>
      let currentRow := Z.div tileIndex size in
      let currentCol := Z.rem tileIndex size in
      let targetRow := Z.div targetIndex size in
      let targetCol := Z.rem targetIndex size in
      let currentDist := Z.abs (currentRow - targetRow) + Z.abs (currentCol - targetCol) in
      let newRow := Z.div emptyIndex size in
      let newCol := Z.rem emptyIndex size in
      let newDist := Z.abs (newRow - targetRow) + Z.abs (newCol - targetCol) in
      Some (currentDist - newDist)
  end.

(** The [for ... of validMoves] loop with its two accumulators. *)
Fixpoint hint_loop (score : Z -> option Z) (cands : list Z)
    (bestTile : option Z) (bestScore : Z) : option Z :=
  match cands with
  | [] => bestTile
  | c :: cs =>
      match score c with
      | Some s =>
          if s >? bestScore then hint_loop score cs (Some c) s
          else hint_loop score cs bestTile bestScore
      | None => hint_loop score cs bestTile bestScore
      end
  end.

Definition getNextMoveHint (puzzle : PuzzleState) : option Z :=
  hint_loop (hint_score (grid puzzle) (emptyIndex puzzle) (size puzzle))
    (hint_candidates (emptyIndex puzzle) (size puzzle)) None (-1).

End Hint.

(** ** The leaderboard of the server ([api.post('/submit-score')] and
    [api.get('/leaderboard')]) *)
Module Leaderboard.

Record LeaderboardEntry := mkEntry {
  username : string;
  time : Z;
  moves : Z;
  difficulty : Z;
  date : string
}.

(** [e.time < ex.time || (e.time === ex.time && e.moves < ex.moves)] *)
Definition better (e ex : LeaderboardEntry) : bool :=
  (time e <? time ex) || ((time e =? time ex) && (moves e <? moves ex)).

(** The comparator passed to [leaderboard.sort]. *)
Definition cmp (a b : LeaderboardEntry) : Z :=
  if negb (time a =? time b) then time a - time b else moves a - moves b.

(** [Array.prototype.sort] is stable; for a comparator that is a total
    preorder every stable sort returns the same list, so the stable insertion
    sort below is the sort the handler performs. *)
Fixpoint insert (x : LeaderboardEntry) (l : list LeaderboardEntry) :=
  match l with
  | [] => [x]
  | y :: t => if cmp x y <=? 0 then x :: y :: t else y :: insert x t
  end.

Fixpoint sort (l : list LeaderboardEntry) : list LeaderboardEntry :=
  match l with
  | [] => []
  | x :: t => insert x (sort t)
  end.

(** [findIndex((e) => e.username === u)], [None] for [-1]. *)
Fixpoint find_index (u : string) (l : list LeaderboardEntry) : option nat :=
  match l with
  | [] => None
  | e :: t =>
      if String.eqb (username e) u then Some O
      else option_map S (find_index u t)
  end.

Definition count_better (l : list LeaderboardEntry) (ex : LeaderboardEntry) : Z :=
  Z.of_nat (length (filter (fun e => better e ex) l)).

Inductive outcome := Submitted | ExistingRetained.

(** The table update of the handler, from [findIndex] to the computed rank:
    the table to store ([None]: nothing is written), the rank and the
    outcome. *)
Definition submit (leaderboard : list LeaderboardEntry) (entry : LeaderboardEntry)
  : option (list LeaderboardEntry) * Z * outcome :=
  let finish (l : list LeaderboardEntry) :=
    let sorted := sort l in
    let top := firstn 100 sorted in
    let rank := match find_index (username entry) top with
                | Some i => Z.of_nat i + 1
                | None => 0
                end in
    (Some top, rank, Submitted) in
  match find_index (username entry) leaderboard with
  | Some i =>
      match nth_error leaderboard i with
      | None => finish (leaderboard ++ [entry])
      | Some existing =>
          if better entry existing then finish (list_set leaderboard i entry)
          else (None, count_better leaderboard existing + 1, ExistingRetained)
      end
  | None => finish (leaderboard ++ [entry])
  end.

(** *** The HTTP handler and its key-value store *)

(** Decimal text of an integer, as the template literal prints it. *)
Fixpoint digits (fuel : nat) (n : Z) (acc : string) : string :=
  match fuel with
  | O => acc
  | S f =>
      let acc' := String (Ascii.ascii_of_nat (48 + Z.to_nat (n mod 10))) acc in
      if n / 10 =? 0 then acc' else digits f (n / 10) acc'
  end.

Definition num_to_string (z : Z) : string :=
  if z <? 0 then String.append "-" (digits 64 (- z) "") else digits 64 z "".

Definition leaderboard_key (date : string) (difficulty : Z) : string :=
  String.append "leaderboard:"
    (String.append date (String.append ":" (num_to_string difficulty))).

(** The store maps keys to tables (the JSON text round-trips the entries);
    the handler's accesses are recorded in order. *)
Definition store := list (string * list LeaderboardEntry).

Inductive event := Get (key : string) | SetKey (key : string).

Fixpoint store_get (s : store) (k : string) : option (list LeaderboardEntry) :=
  match s with
  | [] => None
  | (k', v) :: s' => if String.eqb k k' then Some v else store_get s' k
  end.

Definition store_set (s : store) (k : string) (v : list LeaderboardEntry) : store :=
  (k, v) :: s.

(** A JSON body field: a number, or [None] when it is missing. *)
Record SubmitScoreRequest := mkReq {
  req_time : option Z; req_moves : option Z; req_difficulty : option Z }.

Definition falsy (v : option Z) : bool :=
  match v with None => true | Some z => z =? 0 end.

Inductive response :=
  | Error (code : Z) (message : string)
  | Success (rank : Z) (message : string).

(** [api.post('/submit-score')]: [username] is the result of
    [reddit.getCurrentUsername()], [today] the current date. *)
Definition submit_score_handler (s : store) (body : SubmitScoreRequest)
    (user : option string) (today : string) : response * store * list event :=
  if falsy (req_time body) || falsy (req_moves body) || falsy (req_difficulty body)
  then (Error 400 "Missing required fields: time, moves, difficulty", s, [])
  else
    match user, req_time body, req_moves body, req_difficulty body with
    | None, _, _, _ => (Error 401 "Unable to get username", s, [])
    | Some u, Some t, Some m, Some d =>
        let entry := mkEntry u t m d today in
        let key := leaderboard_key today d in
        let leaderboard := match store_get s key with Some l => l | None => [] end in
        match submit leaderboard entry with
        | (Some top, rank, _) =>
            (Success rank "Score submitted successfully", store_set s key top,
             [Get key; SetKey key])
        | (None, rank, _) =>
            (Success rank "Your existing score is better", s, [Get key])
        end
    | _, _, _, _ => (Error 400 "Missing required fields: time, moves, difficulty", s, [])
    end.

(** [api.get('/leaderboard')] from the parsed difficulty
    ([Number.parseInt(difficultyStr)], [None] for [NaN]). *)
Definition leaderboard_handler (s : store) (date : string) (difficulty : option Z)
  : option (list LeaderboardEntry) * list event :=
  match difficulty with
  | Some d =>
      if (d =? 3) || (d =? 4) || (d =? 5) then
        let key := leaderboard_key date d in
        (Some (match store_get s key with Some l => l | None => [] end), [Get key])
      else (None, [])
  | None => (None, [])
  end.

(** *** Specification-side ordering: [(time, moves)] lexicographically *)

Definition lex_lt (a b : LeaderboardEntry) : Prop :=
  time a < time b \/ (time a = time b /\ moves a < moves b).

Definition lex_le (a b : LeaderboardEntry) : Prop :=
  time a < time b \/ (time a = time b /\ moves a <= moves b).

Definition lex_ltb (a b : LeaderboardEntry) : bool :=
  match Z.compare (time a) (time b) with
  | Lt => true
  | Eq => moves a <? moves b
  | Gt => false
  end.

End Leaderboard.

(** ** The game client: clicks and the time display *)
Module Game.
Import Puzzle.

(** The fields of [gameState] that [handleTileClick] reads and writes. *)
Record GameState := mkGame { puzzle : option PuzzleState; solved : bool; moves : Z }.

(** The calls a click makes besides updating the state: [startTimer],
    [stopTimer], [showSolvedOverlay] (which submits the score) and
    [renderPuzzle]. *)
Inductive ui_call := StartTimer | StopTimer | ShowSolvedOverlay | RenderPuzzle.

(** [handleTileClick]; disabling the hint button is a DOM write and is not
    modelled. *)
Definition handleTileClick (gameState : GameState) (tileIndex : Z)
  : GameState * list ui_call :=
  match puzzle gameState with
  | None => (gameState, [])
  | Some p =>
      if solved gameState then (gameState, [])
      else
        match makeMove p tileIndex with
        | None => (gameState, [])
        | Some newPuzzle =>
            let moves' := moves gameState + 1 in
            let timer := if moves' =? 1 then [StartTimer] else [] in
            if isSolved newPuzzle
            then (mkGame (Some newPuzzle) true moves',
                  timer ++ [StopTimer; ShowSolvedOverlay])
            else (mkGame (Some newPuzzle) false moves', timer ++ [RenderPuzzle])
        end
  end.

(** A sequence of clicks, with the calls they make in order. *)
Fixpoint clicks (gameState : GameState) (taps : list Z) : GameState * list ui_call :=
  match taps with
  | [] => (gameState, [])
  | t :: ts =>
      let (g1, c1) := handleTileClick gameState t in
      let (g2, c2) := clicks g1 ts in
      (g2, c1 ++ c2)
  end.

(** [s.padStart(2, '0')]. *)
Fixpoint zeros (n : nat) : string :=
  match n with O => EmptyString | S k => String "0"%char (zeros k) end.

Definition padStart2 (s : string) : string :=
  String.append (zeros (2 - String.length s)) s.

(** [formatTime] on the whole number of seconds it receives
    ([Math.floor] of the elapsed milliseconds over 1000); [seconds % 60] is
    the truncating remainder and [toString] the decimal text. *)
Definition formatTime (seconds : Z) : string :=
  let mins := Z.div seconds 60 in
  let secs := Z.rem seconds 60 in
  String.append (padStart2 (Leaderboard.num_to_string mins))
    (String.append ":" (padStart2 (Leaderboard.num_to_string secs))).

End Game.

(** ** The daily scheduler ([fetchDailyPuzzle], [hashString]) and
    [api.get('/daily-state')] *)
Module Daily.

Record DailyState := mkDaily {
  imageUrl : string; postId : string; shuffleSeed : Z; date : string }.

(** *** [hashString] *)

(** ToInt32: the 32-bit two's complement value of an integer. *)
Definition to_int32 (z : Z) : Z := (z + 2 ^ 31) mod 2 ^ 32 - 2 ^ 31.

(** [hash = (hash << 5) - hash + char; hash = hash & hash;]: the sum is
    below [2^34] in absolute value, so the double arithmetic is exact. *)
Definition hash_step (hash : Z) (char : Z) : Z :=
  let h := to_int32 (Z.shiftl (to_int32 hash) 5) - hash + char in
  Z.land (to_int32 h) (to_int32 h).

Fixpoint hash_loop (codes : list Z) (hash : Z) : Z :=
  match codes with
  | [] => hash
  | c :: cs => hash_loop cs (hash_step hash c)
  end.

(** [str.charCodeAt(i)] for the ASCII text of a date. *)
Definition char_codes (s : string) : list Z :=
  map (fun a => Z.of_nat (Ascii.nat_of_ascii a)) (list_ascii_of_string s).

Definition hashString (str : string) : Z := Z.abs (hash_loop (char_codes str) 0).

(** *** The image URL of the hot post *)

(** The fields of a post the scheduler reads: [id], [url],
    [thumbnail?.url] and [preview?.images?.[0]?.source?.url]. *)
Record Post := mkPost {
  id : string; url : string; thumbnail_url : option string; preview_url : option string }.

Definition truthy (s : string) : bool := negb (String.eqb s "").

(** [s.replace(/&amp;/g, '&')]: one left-to-right pass. *)
Fixpoint replace_amp (s : string) : string :=
  match s with
  | String c1 ((String c2 (String c3 (String c4 (String c5 rest)))) as s1) =>
      if Ascii.eqb c1 "&" && Ascii.eqb c2 "a" && Ascii.eqb c3 "m"
         && Ascii.eqb c4 "p" && Ascii.eqb c5 ";"
      then String "&" (replace_amp rest)
      else String c1 (replace_amp s1)
  | String c1 s1 => String c1 (replace_amp s1)
  | EmptyString => EmptyString
  end.

(** The case-insensitive test [/\.(jpg|jpeg|png|gif|webp)$/i]. *)
Definition lower (c : Ascii.ascii) : Ascii.ascii :=
  let n := Ascii.nat_of_ascii c in
  if (65 <=? n)%nat && (n <=? 90)%nat then Ascii.ascii_of_nat (n + 32) else c.

Definition lowercase (s : string) : string :=
  string_of_list_ascii (map lower (list_ascii_of_string s)).

Definition ends_with (suffix s : string) : bool :=
  (String.length suffix <=? String.length s)%nat
  && String.eqb (substring (String.length s - String.length suffix)
                   (String.length suffix) s) suffix.

Definition has_image_ext (u : string) : bool :=
  existsb (fun ext => ends_with ext (lowercase u))
    [".jpg"; ".jpeg"; ".png"; ".gif"; ".webp"]%string.

(** Preview first, then a direct image URL, then a thumbnail that is not
    ['self'] or ['default']. *)
Definition pick_image_url (post : Post) : option string :=
  let from_url :=
    if truthy (url post) && has_image_ext (url post) then Some (url post)
    else match thumbnail_url post with
         | Some t =>
             if truthy t && negb (String.eqb t "self") && negb (String.eqb t "default")
             then Some t else None
         | None => None
         end in
  match preview_url post with
  | Some u => if truthy u then Some (replace_amp u) else from_url
  | None => from_url
  end.

(** *** The store of daily states and the two handlers

    The store maps keys to daily states (the JSON text round-trips the
    record); the accesses are recorded in order.  [today] is the date part of
    the current time, [posts] the listing of hot posts. *)
Definition dstore := list (string * DailyState).

Inductive devent := DGet (key : string) | DSet (key : string).

Fixpoint dget (s : dstore) (k : string) : option DailyState :=
  match s with
  | [] => None
  | (k', v) :: s' => if String.eqb k k' then Some v else dget s' k
  end.

Definition dset (s : dstore) (k : string) (v : DailyState) : dstore := (k, v) :: s.

Definition daily_key (today : string) : string := String.append "daily_state:" today.

(** [fetchDailyPuzzle]: [{ success, message }], the new store and the
    accesses. *)
Definition fetchDailyPuzzle (s : dstore) (today : string) (posts : list Post)
  : (bool * string) * dstore * list devent :=
  let key := daily_key today in
  match dget s key with
  | Some _ => ((true, String.append "Daily puzzle already exists for " today), s, [DGet key])
  | None =>
      match posts with
      | [] => ((false, "No hot posts found in r/memes"%string), s, [DGet key])
      | post :: _ =>
          match pick_image_url post with
          | Some imageUrl =>
              if truthy imageUrl then
                let dailyState := mkDaily imageUrl (id post) (hashString today) today in
                ((true, String.append "Daily puzzle fetched for " today),
                 dset (dset s key dailyState) "daily_state:current" dailyState,
                 [DGet key; DSet key; DSet "daily_state:current"])
              else ((false, "Post has no image URL"%string), s, [DGet key])
          | None => ((false, "Post has no image URL"%string), s, [DGet key])
          end
      end
  end.

Inductive daily_response :=
  | DailyOk (state : DailyState)
  | DailyError (code : Z) (message : string).

(** [api.get('/daily-state')]: today's state, else the current one. *)
Definition daily_state_handler (s : dstore) (today : string)
  : daily_response * list devent :=
  let key := daily_key today in
  match dget s key with
  | Some st => (DailyOk st, [DGet key])
  | None =>
      match dget s "daily_state:current" with
      | Some st => (DailyOk st, [DGet key; DGet "daily_state:current"])
      | None =>
          (DailyError 404
             "Daily puzzle not yet initialized. Please wait for the scheduler to run.",
           [DGet key; DGet "daily_state:current"])
      end
  end.

End Daily.

(** ** The counter endpoints ([/init], [/increment], [/decrement]) *)
Module Counter.

(** [postId] comes from the request context, [count] is the value stored
    under ['count'] ([None] when missing). *)
Inductive counter_response :=
  | InitOk (postId : string) (count : Z) (username : string)
  | CountOk (count : Z) (postId : string)
  | CountError (code : Z) (message : string).

(** [redis.incrBy('count', by)]: a missing key counts as 0. *)
Definition incrBy (count : option Z) (by_ : Z) : Z :=
  match count with Some v => v | None => 0 end + by_.

Definition init (postId : option string) (count : option Z) (username : option string)
  : counter_response :=
  match postId with
  | None => CountError 400 "postId is required but missing from context"
  | Some pid =>
      InitOk pid (match count with Some v => v | None => 0 end)
        (match username with Some u => u | None => "anonymous" end)
  end.

Definition increment (postId : option string) (count : option Z)
  : counter_response * option Z :=
  match postId with
  | None => (CountError 400 "postId is required", count)
  | Some pid => let c := incrBy count 1 in (CountOk c pid, Some c)
  end.

Definition decrement (postId : option string) (count : option Z)
  : counter_response * option Z :=
  match postId with
  | None => (CountError 400 "postId is required", count)
  | Some pid => let c := incrBy count (-1) in (CountOk c pid, Some c)
  end.

Inductive call := Increment | Decrement.

(** The stored count after a sequence of calls. *)
Fixpoint run (postId : option string) (count : option Z) (calls : list call) : option Z :=
  match calls with
  | [] => count
  | Increment :: cs => run postId (snd (increment postId count)) cs
  | Decrement :: cs => run postId (snd (decrement postId count)) cs
  end.

End Counter.

(** ** Specification-side notions for the further properties *)

(** Inversions of a list of numbers, for the parity argument about
    [countInversions]. *)
Module Inversions.

(** The defined cells other than [empty], in order. *)
Fixpoint filt (empty : Z) (l : list jsval) : list Z :=
  match l with
  | [] => []
  | Some y :: t => if Z.eqb y empty then filt empty t else y :: filt empty t
  | None :: t => filt empty t
  end.

(** The values of [l] smaller than [x]. *)
Fixpoint cnt (x : Z) (l : list Z) : Z :=
  match l with
  | [] => 0
  | y :: t => (if x >? y then 1 else 0) + cnt x t
  end.

(** The values of [l] greater than [v]. *)
Fixpoint cnt_gt (v : Z) (l : list Z) : Z :=
  match l with
  | [] => 0
  | y :: t => (if y >? v then 1 else 0) + cnt_gt v t
  end.

Fixpoint inv (l : list Z) : Z :=
  match l with
  | [] => 0
  | x :: t => cnt x t + inv t
  end.

(** The pairs with the first value in [a] and the second, smaller, in [b]. *)
Definition cross (a b : list Z) : Z := fold_right (fun x acc => cnt x b + acc) 0 a.

End Inversions.

(** The shape of every table the leaderboard store holds: sorted by
    [(time, moves)], at most 100 entries, one per user name. *)
Module LeaderboardSpec.
Import Leaderboard.

Definition wf_table (l : list LeaderboardEntry) : Prop :=
  Sorted lex_le l /\ (length l <= 100)%nat /\ NoDup (map username l).

Definition wf_store (s : store) : Prop :=
  forall k l, store_get s k = Some l -> wf_table l.

End LeaderboardSpec.

(** * Proofs *)

(** ** Lists updated by index *)

Lemma length_list_set {A} (l : list A) n x : length (list_set l n x) = length l.
Proof.
  revert n; induction l as [|h t IH]; intros [|n]; simpl; auto.
Qed.

Lemma nth_list_set {A} (l : list A) n x m d :
  (n < length l)%nat ->
  nth m (list_set l n x) d = if Nat.eqb m n then x else nth m l d.
Proof.
  revert n m; induction l as [|h t IH]; intros n m Hn; simpl in Hn; [lia|].
  destruct n as [|n], m as [|m]; simpl; auto.
  apply IH; lia.
Qed.

Lemma list_set_perm {A} (l : list A) n y d :
  (n < length l)%nat -> Permutation (nth n l d :: list_set l n y) (y :: l).
Proof.
  revert n; induction l as [|h t IH]; intros n Hn; simpl in Hn; [lia|].
  destruct n as [|n]; simpl.
  - apply perm_swap.
  - specialize (IH n ltac:(lia)).
    eapply perm_trans; [apply perm_swap|].
    eapply perm_trans; [apply perm_skip, IH|].
    apply perm_swap.
Qed.

(** Exchanging two cells permutes the list. *)
Lemma list_swap_perm {A} (l : list A) i j d :
  (i < length l)%nat -> (j < length l)%nat ->
  Permutation (list_set (list_set l i (nth j l d)) j (nth i l d)) l.
Proof.
  intros Hi Hj.
  set (l1 := list_set l i (nth j l d)).
  assert (Hl1 : length l1 = length l) by apply length_list_set.
  assert (Hb : nth j l1 d = nth j l d).
  { unfold l1; rewrite nth_list_set by lia.
    destruct (Nat.eqb_spec j i); subst; reflexivity. }
  apply (Permutation_cons_inv (a := nth j l d)).
  eapply perm_trans.
  - rewrite <- Hb. apply list_set_perm. lia.
  - apply list_set_perm. exact Hi.
Qed.

(** ** JS arrays *)

Lemma arr_get_in a k :
  0 <= k < Z.of_nat (length (elems a)) ->
  arr_get a k = nth (Z.to_nat k) (elems a) None.
Proof.
  intros Hk; unfold arr_get; destruct (Z.ltb_spec k 0); [lia|reflexivity].
Qed.

Lemma arr_set_in a k v :
  0 <= k < Z.of_nat (length (elems a)) ->
  elems (arr_set a k v) = list_set (elems a) (Z.to_nat k) v.
Proof.
  intros Hk; unfold arr_set.
  destruct (Z.ltb_spec k 0); [lia|].
  destruct (Z.ltb_spec k (Z.of_nat (length (elems a)))); [reflexivity|lia].
Qed.

Lemma arr_get_of_some l k v :
  arr_get (arr_of l) k = Some v -> 0 <= k < Z.of_nat (length l).
Proof.
  unfold arr_get, arr_of; simpl.
  destruct (Z.ltb_spec k 0) as [Hneg|Hnn]; [discriminate|].
  intros Hv; split; [lia|].
  destruct (Nat.lt_ge_cases (Z.to_nat k) (length l)) as [Hl|Hl]; [lia|].
  rewrite nth_overflow in Hv by lia; discriminate.
Qed.

Lemma arr_get_of_none l k :
  (k < 0 \/ Z.of_nat (length l) <= k) -> arr_get (arr_of l) k = None.
Proof.
  intros Hk; destruct (arr_get (arr_of l) k) eqn:E; [|reflexivity].
  apply arr_get_of_some in E; lia.
Qed.

(** The swap [t = a[i]; a[i] = a[j]; a[j] = t] on two in-range cells. *)
Lemma arr_swap_elems a i j :
  0 <= i < Z.of_nat (length (elems a)) -> 0 <= j < Z.of_nat (length (elems a)) ->
  elems (arr_set (arr_set a i (arr_get a j)) j (arr_get a i))
  = list_set (list_set (elems a) (Z.to_nat i) (nth (Z.to_nat j) (elems a) None))
      (Z.to_nat j) (nth (Z.to_nat i) (elems a) None).
Proof.
  intros Hi Hj.
  rewrite (arr_get_in a i Hi), (arr_get_in a j Hj).
  rewrite arr_set_in.
  - rewrite arr_set_in by exact Hi. reflexivity.
  - unfold arr_set; destruct (Z.ltb_spec i 0); [lia|].
    destruct (Z.ltb_spec i (Z.of_nat (length (elems a)))); [|lia].
    simpl; rewrite length_list_set; exact Hj.
Qed.

Lemma arr_swap_perm a i j :
  0 <= i < Z.of_nat (length (elems a)) -> 0 <= j < Z.of_nat (length (elems a)) ->
  Permutation (elems (arr_set (arr_set a i (arr_get a j)) j (arr_get a i))) (elems a).
Proof.
  intros Hi Hj; rewrite arr_swap_elems by assumption.
  apply list_swap_perm; lia.
Qed.

Lemma arr_swap_length a i j :
  0 <= i < Z.of_nat (length (elems a)) -> 0 <= j < Z.of_nat (length (elems a)) ->
  length (elems (arr_set (arr_set a i (arr_get a j)) j (arr_get a i))) = length (elems a).
Proof.
  intros Hi Hj; rewrite arr_swap_elems by assumption.
  rewrite !length_list_set; reflexivity.
Qed.

(** The swap of two defined cells of a fresh copy, as [makeMove] and the
    fallback write it. *)
Lemma arr_of_swap_perm l i j x y :
  arr_get (arr_of l) i = Some x -> arr_get (arr_of l) j = Some y ->
  Permutation (elems (arr_set (arr_set (arr_of l) i (Some y)) j (Some x))) l.
Proof.
  intros Hx Hy.
  pose proof (arr_get_of_some _ _ _ Hx) as Hi.
  pose proof (arr_get_of_some _ _ _ Hy) as Hj.
  rewrite <- Hx, <- Hy.
  apply (arr_swap_perm (arr_of l)); exact Hi || exact Hj.
Qed.

Lemma arr_get_nonneg l k :
  0 <= k -> arr_get (arr_of l) k = nth (Z.to_nat k) l None.
Proof.
  intros Hk; unfold arr_get; destruct (Z.ltb_spec k 0); [lia|reflexivity].
Qed.

(** The two writes of a swap on a fresh copy, read back anywhere. *)
Lemma arr_of_swap_nth l i j x y m :
  arr_get (arr_of l) i = Some x -> arr_get (arr_of l) j = Some y ->
  elems (arr_set (arr_set (arr_of l) i (Some y)) j (Some x))
  = list_set (list_set l (Z.to_nat i) (Some y)) (Z.to_nat j) (Some x)
  /\ nth m (elems (arr_set (arr_set (arr_of l) i (Some y)) j (Some x))) None
     = if Nat.eqb m (Z.to_nat j) then Some x
       else if Nat.eqb m (Z.to_nat i) then Some y else nth m l None.
Proof.
  intros Hx Hy.
  pose proof (arr_get_of_some _ _ _ Hx) as Hi.
  pose proof (arr_get_of_some _ _ _ Hy) as Hj.
  assert (E : elems (arr_set (arr_set (arr_of l) i (Some y)) j (Some x))
              = list_set (list_set l (Z.to_nat i) (Some y)) (Z.to_nat j) (Some x)).
  { rewrite arr_set_in.
    - rewrite arr_set_in by (simpl; lia). reflexivity.
    - rewrite arr_set_in by (simpl; lia). simpl; rewrite length_list_set; lia. }
  split; [exact E|].
  rewrite E, nth_list_set by (rewrite length_list_set; lia).
  destruct (Nat.eqb m (Z.to_nat j)); [reflexivity|].
  rewrite nth_list_set by lia. reflexivity.
Qed.

Lemma index_of_from_spec l x i0 :
  In (Some x) l ->
  0 <= index_of_from l x i0 - i0
  /\ nth (Z.to_nat (index_of_from l x i0 - i0)) l None = Some x.
Proof.
  revert i0; induction l as [|v t IH]; intros i0 Hin; [destruct Hin|].
  destruct v as [y|]; simpl.
  - destruct (Z.eqb_spec y x) as [->|Hne].
    + rewrite Z.sub_diag; simpl; split; [lia|reflexivity].
    + destruct Hin as [Heq|Hin]; [congruence|].
      destruct (IH (i0 + 1) Hin) as [H1 H2].
      split; [lia|].
      replace (Z.to_nat (index_of_from t x (i0 + 1) - i0))
        with (S (Z.to_nat (index_of_from t x (i0 + 1) - (i0 + 1)))) by lia.
      exact H2.
  - destruct Hin as [Heq|Hin]; [discriminate|].
    destruct (IH (i0 + 1) Hin) as [H1 H2].
    split; [lia|].
    replace (Z.to_nat (index_of_from t x (i0 + 1) - i0))
      with (S (Z.to_nat (index_of_from t x (i0 + 1) - (i0 + 1)))) by lia.
    exact H2.
Qed.

Lemma index_of_spec l x :
  In (Some x) l -> arr_get (arr_of l) (index_of l x) = Some x.
Proof.
  intros Hin; destruct (index_of_from_spec l x 0 Hin) as [H1 H2].
  rewrite Z.sub_0_r in H1, H2.
  rewrite arr_get_nonneg by exact H1. exact H2.
Qed.

Lemma length_solvedGrid n : length (Puzzle.solvedGrid n) = Z.to_nat (n * n).
Proof.
  unfold Puzzle.solvedGrid, zseq; rewrite !length_map, length_seq; reflexivity.
Qed.

Lemma in_solvedGrid n v : 0 <= v < n * n -> In (Some v) (Puzzle.solvedGrid n).
Proof.
  intros Hv; unfold Puzzle.solvedGrid, zseq.
  apply in_map, in_map_iff. exists (Z.to_nat v); split; [lia|].
  apply in_seq; lia.
Qed.

Lemma none_notin_solvedGrid n : ~ In None (Puzzle.solvedGrid n).
Proof.
  unfold Puzzle.solvedGrid; intros Hin; apply in_map_iff in Hin.
  destruct Hin as [x [Hx _]]; discriminate.
Qed.

(** ** The generator and the shuffle *)

Section Shuffle.
Import Puzzle.

Lemma lcg_next_range s : 0 <= s -> 0 <= lcg_next s < 2 ^ 32.
Proof. intros Hs; unfold lcg_next; apply Z.rem_bound_pos; lia. Qed.

Lemma draw_index_range s i :
  0 <= s < 2 ^ 32 -> 0 <= i -> 0 <= draw_index s i <= i.
Proof.
  intros Hs Hi; unfold draw_index; split.
  - apply Z.div_pos; nia.
  - apply Z.lt_succ_r, Z.div_lt_upper_bound; nia.
Qed.

Lemma fisher_yates_perm k a rng :
  0 <= rng -> (k < length (elems a))%nat ->
  Permutation (elems (fst (fisher_yates k a rng))) (elems a)
  /\ length (elems (fst (fisher_yates k a rng))) = length (elems a)
  /\ 0 <= snd (fisher_yates k a rng).
Proof.
  revert a rng; induction k as [|k IH]; intros a rng Hr Hk; cbn [fisher_yates].
  - simpl; split; [reflexivity|]; split; [reflexivity|exact Hr].
  - set (i := Z.of_nat (S k)).
    pose proof (lcg_next_range rng Hr) as Hs.
    pose proof (draw_index_range (lcg_next rng) i Hs ltac:(lia)) as Hj.
    set (j := draw_index (lcg_next rng) i) in *.
    assert (Hi' : 0 <= i < Z.of_nat (length (elems a))) by lia.
    assert (Hj' : 0 <= j < Z.of_nat (length (elems a))) by lia.
    pose proof (arr_swap_perm a i j Hi' Hj') as Hp.
    pose proof (arr_swap_length a i j Hi' Hj') as Hl.
    assert (Hk' : (k < length (elems (arr_set (arr_set a i (arr_get a j)) j
                                                (arr_get a i))))%nat)
      by (rewrite Hl; lia).
    destruct (IH _ (lcg_next rng) ltac:(lia) Hk') as [H1 [H2 H3]].
    split; [eapply perm_trans; eassumption|].
    split; [rewrite H2; exact Hl|exact H3].
Qed.

Lemma seededShuffle_perm l rng :
  0 <= rng -> l <> [] ->
  Permutation (elems (fst (seededShuffle l rng))) l
  /\ 0 <= snd (seededShuffle l rng).
Proof.
  intros Hr Hl; unfold seededShuffle.
  destruct l as [|v l]; [congruence|].
  destruct (fisher_yates_perm (length (v :: l) - 1) (arr_of (v :: l)) rng Hr)
    as [H1 [_ H3]]; [simpl; lia|].
  split; assumption.
Qed.

Lemma fallback_perm size :
  Permutation (elems (fallback_grid size)) (solvedGrid size).
Proof.
  unfold fallback_grid.
  destruct (arr_get (arr_of (solvedGrid size)) (size * size - 1)) as [last|] eqn:E1;
    [|reflexivity].
  destruct (arr_get (arr_of (solvedGrid size)) (size * size - 2)) as [sl|] eqn:E2;
    [|reflexivity].
  apply arr_of_swap_perm; assumption.
Qed.

Lemma shuffle_loop_spec n size att rng :
  0 <= rng -> 0 <= att -> att + Z.of_nat n = 100 -> 1 <= size * size ->
  Permutation (elems (shuffle_loop n size att rng)) (solvedGrid size)
  /\ (isSolvable (elems (shuffle_loop n size att rng)) size = true
      \/ shuffle_loop n size att rng = fallback_grid size).
Proof.
  revert att rng; induction n as [|n IH]; intros att rng Hr Ha Hn Hs; simpl;
    (assert (Hne : solvedGrid size <> [])
       by (intros E; pose proof (length_solvedGrid size) as L; rewrite E in L;
           simpl in L; lia));
    destruct (seededShuffle_perm (solvedGrid size) rng Hr Hne) as [Hp Hr'];
    destruct (seededShuffle (solvedGrid size) rng) as [g rng'] eqn:Eg; simpl in *.
  - destruct (Z.gtb_spec (att + 1) 100); [|lia].
    split; [apply fallback_perm|right; reflexivity].
  - destruct (Z.gtb_spec (att + 1) 100).
    + split; [apply fallback_perm|right; reflexivity].
    + destruct (isSolvable (elems g) size) eqn:Es.
      * split; [exact Hp|left; exact Es].
      * apply IH; lia.
Qed.

End Shuffle.

(** ** Moves keep the invariant *)

Lemma makeMove_inv_step p t p' :
  Puzzle.puzzle_inv p -> Puzzle.makeMove p t = Some p' -> Puzzle.puzzle_inv p'.
Proof.
  destruct p as [g e n]; unfold Puzzle.puzzle_inv, Puzzle.makeMove; simpl.
  intros [Hp He] Hm.
  destruct (Puzzle.isValidMove _ t); simpl in Hm; [|discriminate].
  destruct (arr_get (arr_of g) t) as [tv|] eqn:Et; [|discriminate].
  destruct (arr_get (arr_of g) e) as [ev|] eqn:Ee; [|discriminate].
  injection Hm as <-; simpl.
  assert (ev = n * n - 1) as -> by congruence.
  split.
  - eapply perm_trans; [apply arr_of_swap_perm; eassumption|exact Hp].
  - pose proof (arr_get_of_some _ _ _ Et) as Ht.
    rewrite arr_get_nonneg by lia.
    destruct (arr_of_swap_nth g t e tv (n * n - 1) (Z.to_nat t) Et Ee) as [_ Hn].
    rewrite Hn, Nat.eqb_refl.
    destruct (Nat.eqb_spec (Z.to_nat t) (Z.to_nat e)) as [Heq|]; [|reflexivity].
    assert (t = e) as -> by (pose proof (arr_get_of_some _ _ _ Ee); lia).
    congruence.
Qed.

Section Created.
Import Puzzle.

Lemma createShuffledPuzzle_spec size seed :
  (size = 3 \/ size = 4 \/ size = 5) -> 0 <= seed ->
  Permutation (grid (createShuffledPuzzle size seed)) (solvedGrid size)
  /\ (isSolvable (grid (createShuffledPuzzle size seed)) size = true
      \/ grid (createShuffledPuzzle size seed) = elems (fallback_grid size)).
Proof.
  intros Hs Hseed; unfold createShuffledPuzzle; cbn [grid].
  destruct (shuffle_loop_spec 100 size 0 seed Hseed ltac:(lia) ltac:(lia) ltac:(lia))
    as [Hp [Hv|Hf]].
  - split; [exact Hp|left; exact Hv].
  - split; [exact Hp|right; rewrite Hf; reflexivity].
Qed.

End Created.

(** * The claims about the puzzle engine *)

Import Puzzle.

(** C1, partial result.  For every size in {3,4,5} and every seed in
    [0, 2^32), [createShuffledPuzzle] returns a permutation of
    [0 .. size²-1]; for sizes 3 and 5 it satisfies [isSolvable]; for size 4
    it satisfies [isSolvable] or is the fallback board, which is returned
    only when the first 100 shuffles are all rejected. *)
Theorem createShuffledPuzzle_permutation_solvable (n seed : Z) :
  (n = 3 \/ n = 4 \/ n = 5) -> 0 <= seed < 2 ^ 32 ->
  Permutation (grid (createShuffledPuzzle n seed)) (solvedGrid n)
  /\ (n <> 4 -> isSolvable (grid (createShuffledPuzzle n seed)) n = true)
  /\ (isSolvable (grid (createShuffledPuzzle n seed)) n = true
      \/ grid (createShuffledPuzzle n seed) = elems (fallback_grid n)).
Proof.
  intros Hn Hseed.
  destruct (createShuffledPuzzle_spec n seed Hn ltac:(lia)) as [Hp Hv].
  split; [exact Hp|]; split; [|exact Hv].
  intros H4; destruct Hv as [Hv|Hf]; [exact Hv|].
  rewrite Hf.
  destruct Hn as [ -> | [ -> | -> ] ]; [vm_compute; reflexivity|contradiction|].
  vm_compute; reflexivity.
Qed.

Lemma createShuffledPuzzle_permutation_solvable_witness :
  (0 <= 20261016 < 2 ^ 32)
  /\ Permutation (grid (createShuffledPuzzle 5 20261016)) (solvedGrid 5)
  /\ (5 <> 4 -> isSolvable (grid (createShuffledPuzzle 5 20261016)) 5 = true)
  /\ (isSolvable (grid (createShuffledPuzzle 5 20261016)) 5 = true
      \/ grid (createShuffledPuzzle 5 20261016) = elems (fallback_grid 5)).
Proof.
  split; [lia|].
  apply (createShuffledPuzzle_permutation_solvable 5 20261016);
    [right; right; reflexivity|lia].
Defined.

(** C1, negative seeds.  With the seed -1000 the truncating [%] keeps the
    generator negative, the shuffle reads negative indices and the 3x3 board
    it returns holds [undefined] cells: it is no permutation of [0 .. 8]. *)
Lemma createShuffledPuzzle_negative_seed_not_permutation :
  ~ Permutation (grid (createShuffledPuzzle 3 (-1000))) (solvedGrid 3).
Proof.
  intros Hp; apply (none_notin_solvedGrid 3).
  apply (Permutation_in _ Hp).
  vm_compute; right; right; right; left; reflexivity.
Qed.

(** C2 (code bug).  The fallback board, the solved board with the empty
    tile slid one cell left, is one [makeMove] away from the solved board,
    yet [isSolvable] rejects it for size 4 (and rejects the solved 4x4 board
    too); for sizes 3 and 5 it accepts it. *)
Theorem fallback_isSolvable_by_size :
  isSolvable (elems (fallback_grid 4)) 4 = false
  /\ makeMove (mkPuzzle (solvedGrid 4) 15 4) 14
     = Some (mkPuzzle (elems (fallback_grid 4)) 14 4)
  /\ isSolvable (solvedGrid 4) 4 = false
  /\ isSolvable (elems (fallback_grid 3)) 3 = true
  /\ isSolvable (elems (fallback_grid 5)) 5 = true.
Proof. repeat split; vm_compute; reflexivity. Qed.

(** C4 (amended).  Every state [createShuffledPuzzle] returns for a size in
    {3,4,5} and a seed in [0, 2^32) satisfies the [PuzzleState] invariant,
    and [makeMove] maps every state satisfying it to states satisfying it. *)
Theorem puzzle_inv_created_and_preserved :
  (forall n seed, (n = 3 \/ n = 4 \/ n = 5) -> 0 <= seed < 2 ^ 32 ->
     puzzle_inv (createShuffledPuzzle n seed))
  /\ (forall p t p', puzzle_inv p -> makeMove p t = Some p' -> puzzle_inv p').
Proof.
  split; [|exact makeMove_inv_step].
  intros n seed Hn Hseed.
  destruct (createShuffledPuzzle_spec n seed Hn ltac:(lia)) as [Hp _].
  unfold puzzle_inv.
  change (size (createShuffledPuzzle n seed)) with n.
  change (emptyIndex (createShuffledPuzzle n seed))
    with (index_of (grid (createShuffledPuzzle n seed)) (n * n - 1)).
  split; [exact Hp|].
  apply index_of_spec.
  apply (Permutation_in _ (Permutation_sym Hp)).
  apply in_solvedGrid; nia.
Qed.

Lemma puzzle_inv_created_and_preserved_witness :
  puzzle_inv (createShuffledPuzzle 4 20261016)
  /\ makeMove (mkPuzzle (solvedGrid 3) 8 3) 5
     = Some (mkPuzzle [Some 0; Some 1; Some 2; Some 3; Some 4; Some 8;
                       Some 6; Some 7; Some 5] 5 3)
  /\ puzzle_inv (mkPuzzle [Some 0; Some 1; Some 2; Some 3; Some 4; Some 8;
                           Some 6; Some 7; Some 5] 5 3).
Proof.
  destruct puzzle_inv_created_and_preserved as [Hc Hm].
  assert (Hs : puzzle_inv (mkPuzzle (solvedGrid 3) 8 3))
    by (split; [reflexivity|vm_compute; reflexivity]).
  assert (Hmv : makeMove (mkPuzzle (solvedGrid 3) 8 3) 5
                = Some (mkPuzzle [Some 0; Some 1; Some 2; Some 3; Some 4; Some 8;
                                  Some 6; Some 7; Some 5] 5 3))
    by (vm_compute; reflexivity).
  split; [apply Hc; [right; left; reflexivity|lia]|].
  split; [exact Hmv|].
  exact (Hm _ _ _ Hs Hmv).
Defined.

(** C4 (counterexample).  The state returned for size 3 and seed -1000 does
    not satisfy the invariant. *)
Lemma createShuffledPuzzle_negative_seed_breaks_inv :
  ~ puzzle_inv (createShuffledPuzzle 3 (-1000)).
Proof.
  intros [Hp _]; apply (none_notin_solvedGrid 3).
  apply (Permutation_in _ Hp).
  vm_compute; right; right; right; left; reflexivity.
Qed.

(** ** Grid geometry *)

Lemma divmod_of s x q r :
  0 < s -> 0 <= r < s -> x = s * q + r -> x / s = q /\ x mod s = r.
Proof.
  intros Hs Hr Hx; split.
  - symmetry; apply (Z.div_unique_pos x s q r); lia.
  - symmetry; apply (Z.mod_unique_pos x s q r); lia.
Qed.

Lemma orth_adjacent_iff s t e :
  orth_adjacent s t e = true <->
  (0 <= t < s * s /\ 0 <= e < s * s
   /\ ((t / s = e / s /\ Z.abs (t mod s - e mod s) = 1)
       \/ (t mod s = e mod s /\ Z.abs (t / s - e / s) = 1))).
Proof.
  unfold orth_adjacent.
  repeat (rewrite ?andb_true_iff, ?orb_true_iff, ?Z.eqb_eq, ?Z.leb_le, ?Z.ltb_lt).
  tauto.
Qed.

Lemma existsb_eqb_in e l : existsb (Z.eqb e) l = true <-> In e l.
Proof.
  rewrite existsb_exists; split.
  - intros [x [Hx He]]; apply Z.eqb_eq in He; subst; exact Hx.
  - intros Hx; exists e; split; [exact Hx|apply Z.eqb_refl].
Qed.

(** For an on-grid cell, [getAdjacentIndices] lists exactly its orthogonal
    neighbours. *)
Lemma getAdjacentIndices_iff s t e :
  0 < s -> 0 <= t < s * s ->
  In e (getAdjacentIndices t s) <-> orth_adjacent s t e = true.
Proof.
  intros Hs Ht.
  rewrite orth_adjacent_iff.
  unfold getAdjacentIndices.
  rewrite Z.rem_mod_nonneg by lia.
  pose proof (Z.div_mod t s ltac:(lia)) as Et.
  pose proof (Z.mod_pos_bound t s Hs) as Hr.
  assert (Hq : 0 <= t / s < s)
    by (split; [apply Z.div_pos; lia|apply Z.div_lt_upper_bound; lia]).
  set (q := t / s) in *; set (r := t mod s) in *; clearbody q r.
  rewrite !in_app_iff.
  split.
  - intros Hin.
    destruct (Z.gtb_spec q 0), (Z.ltb_spec q (s - 1)), (Z.gtb_spec r 0),
      (Z.ltb_spec r (s - 1)); simpl in Hin;
      repeat match goal with
      | H : _ \/ _ |- _ => destruct H
      | H : False |- _ => destruct H
      end; subst e;
      match goal with
      | |- context [(t - s) / s] =>
          destruct (divmod_of s (t - s) (q - 1) r Hs Hr ltac:(lia)) as [-> ->]
      | |- context [(t + s) / s] =>
          destruct (divmod_of s (t + s) (q + 1) r Hs Hr ltac:(lia)) as [-> ->]
      | |- context [(t - 1) / s] =>
          destruct (divmod_of s (t - 1) q (r - 1) Hs ltac:(lia) ltac:(lia)) as [-> ->]
      | |- context [(t + 1) / s] =>
          destruct (divmod_of s (t + 1) q (r + 1) Hs ltac:(lia) ltac:(lia)) as [-> ->]
      end; nia.
  - intros [_ [He Hadj]].
    pose proof (Z.div_mod e s ltac:(lia)) as Ee.
    pose proof (Z.mod_pos_bound e s Hs) as Hre.
    assert (Hqe : 0 <= e / s < s)
      by (split; [apply Z.div_pos; lia|apply Z.div_lt_upper_bound; lia]).
    set (qe := e / s) in *; set (re := e mod s) in *; clearbody qe re.
    destruct Hadj as [[Hqq Hrr]|[Hrr Hqq]]; subst qe || subst re;
      destruct (Z.gtb_spec q 0), (Z.ltb_spec q (s - 1)), (Z.gtb_spec r 0),
        (Z.ltb_spec r (s - 1)); simpl; nia.
Qed.

Lemma orth_adjacent_sym s t e : orth_adjacent s t e = orth_adjacent s e t.
Proof.
  destruct (orth_adjacent s e t) eqn:E.
  - apply orth_adjacent_iff in E; apply orth_adjacent_iff.
    destruct E as [H1 [H2 H3]]; split; [exact H2|]; split; [exact H1|].
    destruct H3 as [[H3 H4]|[H3 H4]]; [left|right]; split; lia.
  - destruct (orth_adjacent s t e) eqn:E'; [|reflexivity].
    apply orth_adjacent_iff in E'.
    rewrite <- E; symmetry; apply orth_adjacent_iff.
    destruct E' as [H1 [H2 H3]]; split; [exact H2|]; split; [exact H1|].
    destruct H3 as [[H3 H4]|[H3 H4]]; [left|right]; split; lia.
Qed.

Lemma orth_adjacent_neq s t e : orth_adjacent s t e = true -> t <> e.
Proof.
  intros H ->; apply orth_adjacent_iff in H.
  destruct H as [_ [_ [[_ H]|[_ H]]]]; rewrite Z.sub_diag in H; discriminate.
Qed.

(** Under the invariant every cell of the grid is defined. *)
Lemma inv_cell_defined p k :
  puzzle_inv p -> 0 <= k < size p * size p ->
  exists v, arr_get (arr_of (grid p)) k = Some v.
Proof.
  intros [Hp _] Hk.
  pose proof (Permutation_length Hp) as Hl; rewrite length_solvedGrid in Hl.
  rewrite arr_get_nonneg by lia.
  destruct (nth (Z.to_nat k) (grid p) None) as [v|] eqn:E; [exists v; reflexivity|].
  exfalso; apply (none_notin_solvedGrid (size p)).
  apply (Permutation_in _ Hp); rewrite <- E; apply nth_In; lia.
Qed.

(** * The claims about moves *)

(** C3.  For a state whose grid has [size²] cells, [makeMove] returns
    [null] for every [tileIndex] that is not orthogonally adjacent to
    [emptyIndex], in particular for every negative or too large index (even
    where [isValidMove] accepts it, the cell read is [undefined]).  The input
    is only read: [makeMove] copies its grid before writing. *)
Theorem makeMove_non_adjacent_invalid (p : PuzzleState) (t : Z) :
  0 < size p -> length (grid p) = Z.to_nat (size p * size p) ->
  orth_adjacent (size p) t (emptyIndex p) = false ->
  makeMove p t = None.
Proof.
  intros Hs Hl Hadj; unfold makeMove.
  destruct (isValidMove p t) eqn:V; [simpl|reflexivity].
  destruct (Z_lt_le_dec t 0) as [Ht0|Ht0].
  - rewrite arr_get_of_none by lia. reflexivity.
  - destruct (Z_lt_le_dec t (size p * size p)) as [Ht1|Ht1].
    + unfold isValidMove in V; apply existsb_eqb_in in V.
      apply getAdjacentIndices_iff in V; [congruence|exact Hs|lia].
    + rewrite arr_get_of_none by lia. reflexivity.
Qed.

Lemma makeMove_non_adjacent_invalid_witness :
  isValidMove (mkPuzzle (solvedGrid 3) 2 3) (-1) = true
  /\ makeMove (mkPuzzle (solvedGrid 3) 2 3) (-1) = None
  /\ makeMove (mkPuzzle (solvedGrid 3) 8 3) 0 = None.
Proof.
  split; [vm_compute; reflexivity|].
  split.
  - apply makeMove_non_adjacent_invalid; vm_compute; reflexivity.
  - apply makeMove_non_adjacent_invalid; vm_compute; reflexivity.
Defined.

(** C7.  For a state satisfying the invariant and a tile [t] orthogonally
    adjacent to [emptyIndex = e], [makeMove p t] succeeds, and moving the
    tile back with [makeMove _ e] succeeds and restores the grid and [e]. *)
Theorem makeMove_inverse (p : PuzzleState) (t : Z) :
  0 < size p -> puzzle_inv p ->
  orth_adjacent (size p) t (emptyIndex p) = true ->
  exists p1 p2,
    makeMove p t = Some p1 /\ makeMove p1 (emptyIndex p) = Some p2
    /\ grid p2 = grid p /\ emptyIndex p2 = emptyIndex p.
Proof.
  intros Hs Hinv Hadj.
  pose proof Hadj as Hr; apply orth_adjacent_iff in Hr.
  destruct Hr as [Ht [He _]].
  pose proof (orth_adjacent_neq _ _ _ Hadj) as Hne.
  destruct (inv_cell_defined p t Hinv Ht) as [tv Etv].
  destruct (inv_cell_defined p (emptyIndex p) Hinv He) as [ev Eev].
  destruct p as [g e s]; simpl in *.
  assert (V1 : isValidMove (mkPuzzle g e s) t = true).
  { unfold isValidMove; simpl; apply existsb_eqb_in, getAdjacentIndices_iff; auto. }
  set (g1 := elems (arr_set (arr_set (arr_of g) t (Some ev)) e (Some tv))).
  assert (M1 : makeMove (mkPuzzle g e s) t = Some (mkPuzzle g1 t s)).
  { unfold makeMove; rewrite V1; simpl; rewrite Etv, Eev; reflexivity. }
  destruct (arr_of_swap_nth g t e tv ev (Z.to_nat e) Etv Eev) as [G1 _].
  assert (N1 : forall m, nth m g1 None
                 = if Nat.eqb m (Z.to_nat e) then Some tv
                   else if Nat.eqb m (Z.to_nat t) then Some ev else nth m g None).
  { intros m; exact (proj2 (arr_of_swap_nth g t e tv ev m Etv Eev)). }
  assert (Ne : Z.to_nat t <> Z.to_nat e) by lia.
  assert (E1e : arr_get (arr_of g1) e = Some tv)
    by (rewrite arr_get_nonneg, N1, Nat.eqb_refl by lia; reflexivity).
  assert (E1t : arr_get (arr_of g1) t = Some ev).
  { rewrite arr_get_nonneg, N1 by lia.
    rewrite (proj2 (Nat.eqb_neq _ _) Ne), Nat.eqb_refl; reflexivity. }
  assert (V2 : isValidMove (mkPuzzle g1 t s) e = true).
  { unfold isValidMove; simpl; apply existsb_eqb_in, getAdjacentIndices_iff; auto.
    rewrite orth_adjacent_sym; exact Hadj. }
  set (g2 := elems (arr_set (arr_set (arr_of g1) e (Some ev)) t (Some tv))).
  exists (mkPuzzle g1 t s), (mkPuzzle g2 e s).
  split; [exact M1|].
  split; [unfold makeMove; rewrite V2; simpl; rewrite E1e, E1t; reflexivity|].
  split; [|reflexivity]; simpl.
  assert (Lg1 : length g1 = length g)
    by (unfold g1; rewrite G1, !length_list_set; reflexivity).
  assert (Lg2 : length g2 = length g1).
  { unfold g2; rewrite (proj1 (arr_of_swap_nth g1 e t tv ev O E1e E1t)).
    rewrite !length_list_set; reflexivity. }
  apply (nth_ext g2 g None None); [lia|].
  intros m _.
  unfold g2; rewrite (proj2 (arr_of_swap_nth g1 e t tv ev m E1e E1t)), N1.
  rewrite arr_get_nonneg in Etv, Eev by lia.
  destruct (Nat.eqb_spec m (Z.to_nat t)) as [->|Hmt];
    [rewrite Etv; reflexivity|].
  destruct (Nat.eqb_spec m (Z.to_nat e)) as [->|Hme];
    [rewrite Eev; reflexivity|reflexivity].
Qed.

Lemma makeMove_inverse_witness :
  exists p1 p2,
    makeMove (mkPuzzle (solvedGrid 3) 8 3) 5 = Some p1
    /\ makeMove p1 8 = Some p2 /\ grid p2 = solvedGrid 3 /\ emptyIndex p2 = 8.
Proof.
  apply (makeMove_inverse (mkPuzzle (solvedGrid 3) 8 3) 5).
  - simpl; lia.
  - split; [reflexivity|vm_compute; reflexivity].
  - vm_compute; reflexivity.
Defined.

(** * The claim about the hint heuristic *)

Section HintLoop.
Import Hint.
Variable score : Z -> option Z.

(** The candidate just scanned, met again in a membership case. *)
Ltac solve_score :=
  match goal with
  | Ec : score ?c = _, Hs : score ?c = _ |- _ =>
      rewrite Ec in Hs; first [discriminate | injection Hs as <-; lia]
  end.

Lemma hint_loop_some cands bt bs t :
  hint_loop score cands bt bs = Some t ->
  (bt = Some t /\ forall c s, In c cands -> score c = Some s -> s <= bs)
  \/ (exists pre post s, cands = pre ++ t :: post /\ score t = Some s /\ bs < s
      /\ (forall c s', In c pre -> score c = Some s' -> s' < s)
      /\ (forall c s', In c post -> score c = Some s' -> s' <= s)).
Proof.
  revert bt bs; induction cands as [|c cs IH]; intros bt bs H; simpl in H.
  - left; split; [exact H|intros c s []].
  - destruct (score c) as [sc|] eqn:Ec; [destruct (Z.gtb_spec sc bs) as [Hgt|Hle]|].
    + destruct (IH _ _ H) as [[Hb Hall]|[pre [post [s [Hc [Hs [Hlt [Hpre Hpost]]]]]]]].
      * injection Hb as <-. right; exists [], cs, sc.
        split; [reflexivity|]; split; [exact Ec|]; split; [exact Hgt|].
        split; [intros ? ? []|exact Hall].
      * right; exists (c :: pre), post, s.
        split; [simpl; rewrite Hc; reflexivity|]; split; [exact Hs|].
        split; [lia|]; split; [|exact Hpost].
        intros c' s' [<-|Hin] Hs'; [solve_score|exact (Hpre _ _ Hin Hs')].
    + destruct (IH _ _ H) as [[Hb Hall]|[pre [post [s [Hc [Hs [Hlt [Hpre Hpost]]]]]]]].
      * left; split; [exact Hb|].
        intros c' s' [<-|Hin] Hs'; [solve_score|exact (Hall _ _ Hin Hs')].
      * right; exists (c :: pre), post, s.
        split; [simpl; rewrite Hc; reflexivity|]; split; [exact Hs|].
        split; [exact Hlt|]; split; [|exact Hpost].
        intros c' s' [<-|Hin] Hs'; [solve_score|exact (Hpre _ _ Hin Hs')].
    + destruct (IH _ _ H) as [[Hb Hall]|[pre [post [s [Hc [Hs [Hlt [Hpre Hpost]]]]]]]].
      * left; split; [exact Hb|].
        intros c' s' [<-|Hin] Hs'; [solve_score|exact (Hall _ _ Hin Hs')].
      * right; exists (c :: pre), post, s.
        split; [simpl; rewrite Hc; reflexivity|]; split; [exact Hs|].
        split; [exact Hlt|]; split; [|exact Hpost].
        intros c' s' [<-|Hin] Hs'; [solve_score|exact (Hpre _ _ Hin Hs')].
Qed.

Lemma hint_loop_none cands bt bs :
  hint_loop score cands bt bs = None ->
  bt = None /\ forall c s, In c cands -> score c = Some s -> s <= bs.
Proof.
  revert bt bs; induction cands as [|c cs IH]; intros bt bs H; simpl in H.
  - split; [exact H|intros c s []].
  - destruct (score c) as [sc|] eqn:Ec; [destruct (Z.gtb_spec sc bs) as [Hgt|Hle]|].
    + destruct (IH _ _ H) as [Hb _]; discriminate.
    + destruct (IH _ _ H) as [Hb Hall]; split; [exact Hb|].
      intros c' s' [<-|Hin] Hs'; [solve_score|exact (Hall _ _ Hin Hs')].
    + destruct (IH _ _ H) as [Hb Hall]; split; [exact Hb|].
      intros c' s' [<-|Hin] Hs'; [solve_score|exact (Hall _ _ Hin Hs')].
Qed.

End HintLoop.

Section HintClaim.
Import Hint.

(** C8 (amended).  The hint scans the tiles adjacent to the empty cell in
    the order up, down, left, right, scores each by
    [distanceBefore - distanceAfter] (a cell holding [undefined] is
    skipped), and returns the first candidate of maximal score provided that
    score exceeds -1; when every candidate scores -1 or less it returns
    [null]. *)
Theorem getNextMoveHint_spec (p : PuzzleState) :
  let cands := hint_candidates (emptyIndex p) (size p) in
  let score := hint_score (grid p) (emptyIndex p) (size p) in
  (forall t, getNextMoveHint p = Some t ->
     exists pre post s, cands = pre ++ t :: post /\ score t = Some s /\ -1 < s
       /\ (forall c s', In c pre -> score c = Some s' -> s' < s)
       /\ (forall c s', In c post -> score c = Some s' -> s' <= s))
  /\ (getNextMoveHint p = None ->
      forall c s, In c cands -> score c = Some s -> s <= -1).
Proof.
  intros cands score; split.
  - intros t H; unfold getNextMoveHint in H.
    destruct (hint_loop_some _ _ _ _ _ H) as [[Hb _]|Hex]; [discriminate|exact Hex].
  - intros H; unfold getNextMoveHint in H.
    exact (proj2 (hint_loop_none _ _ _ _ H)).
Qed.

(** C8 (counterexample).  On the solved 3x3 board (empty cell 8) the
    candidates are 5 (up) and 7 (left), both scoring -1: the maximal score is
    reached by 5, yet the hint returns [null]. *)
Lemma getNextMoveHint_solved_board_null :
  hint_candidates 8 3 = [5; 7]
  /\ hint_score (solvedGrid 3) 8 3 5 = Some (-1)
  /\ hint_score (solvedGrid 3) 8 3 7 = Some (-1)
  /\ getNextMoveHint (mkPuzzle (solvedGrid 3) 8 3) = None
  /\ getNextMoveHint (mkPuzzle (solvedGrid 3) 8 3) <> Some 5.
Proof.
  repeat split; try (vm_compute; reflexivity).
  vm_compute; discriminate.
Qed.

End HintClaim.

(** * The claims about the leaderboard *)

Section LeaderboardProofs.
Import Leaderboard.

Lemma better_iff a b : better a b = true <-> lex_lt a b.
Proof.
  unfold better, lex_lt.
  rewrite orb_true_iff, andb_true_iff, Z.ltb_lt, Z.eqb_eq, Z.ltb_lt; tauto.
Qed.

Lemma lex_ltb_better a b : lex_ltb a b = better a b.
Proof.
  unfold lex_ltb, better.
  destruct (Z.compare_spec (time a) (time b)) as [E|E|E].
  - rewrite E, Z.ltb_irrefl, Z.eqb_refl; reflexivity.
  - destruct (Z.ltb_spec (time a) (time b)); [reflexivity|lia].
  - destruct (Z.ltb_spec (time a) (time b)); [lia|].
    destruct (Z.eqb_spec (time a) (time b)); [lia|reflexivity].
Qed.

Lemma cmp_le_iff a b : cmp a b <= 0 <-> lex_le a b.
Proof.
  unfold cmp, lex_le.
  destruct (Z.eqb_spec (time a) (time b)); simpl; lia.
Qed.

Lemma lex_le_total a b : lex_le a b \/ lex_le b a.
Proof. unfold lex_le; lia. Qed.

#[local] Instance lex_le_trans : Transitive lex_le.
Proof. intros a b c; unfold lex_le; lia. Qed.

(** *** The stable insertion sort *)

Lemma insert_perm x l : Permutation (insert x l) (x :: l).
Proof.
  induction l as [|y t IH]; simpl; [reflexivity|].
  destruct (cmp x y <=? 0); [reflexivity|].
  eapply perm_trans; [apply perm_skip, IH|apply perm_swap].
Qed.

Lemma sort_perm l : Permutation (sort l) l.
Proof.
  induction l as [|x t IH]; simpl; [reflexivity|].
  eapply perm_trans; [apply insert_perm|apply perm_skip, IH].
Qed.

Lemma insert_hd z x l :
  HdRel lex_le z l -> lex_le z x -> HdRel lex_le z (insert x l).
Proof.
  destruct l as [|y t]; simpl; intros Hd Hz; [constructor; exact Hz|].
  destruct (cmp x y <=? 0); constructor; [exact Hz|].
  inversion Hd; assumption.
Qed.

Lemma insert_sorted x l : Sorted lex_le l -> Sorted lex_le (insert x l).
Proof.
  induction 1 as [|y t Hs IH Hd]; simpl; [repeat constructor|].
  destruct (Z.leb_spec (cmp x y) 0) as [Hle|Hgt].
  - constructor; [constructor; assumption|constructor; apply cmp_le_iff; exact Hle].
  - constructor; [exact IH|].
    apply insert_hd; [exact Hd|].
    destruct (lex_le_total x y) as [H|H]; [apply cmp_le_iff in H; lia|exact H].
Qed.

Lemma sort_sorted l : Sorted lex_le (sort l).
Proof.
  induction l as [|x t IH]; simpl; [constructor|apply insert_sorted, IH].
Qed.

Lemma strongly_sorted_app {A} (R : A -> A -> Prop) l1 l2 :
  StronglySorted R (l1 ++ l2) -> forall x y, In x l1 -> In y l2 -> R x y.
Proof.
  induction l1 as [|a t IH]; simpl; intros H x y Hx Hy; [destruct Hx|].
  apply StronglySorted_inv in H; destruct H as [H1 H2].
  destruct Hx as [<-|Hx]; [|exact (IH H1 x y Hx Hy)].
  rewrite Forall_forall in H2; apply H2, in_or_app; right; exact Hy.
Qed.

(** *** [findIndex] by user name *)

Lemma find_index_some u l i :
  find_index u l = Some i -> exists x, nth_error l i = Some x /\ username x = u.
Proof.
  revert i; induction l as [|e t IH]; intros i H; simpl in H; [discriminate|].
  destruct (String.eqb_spec (username e) u).
  - injection H as <-; exists e; split; [reflexivity|assumption].
  - destruct (find_index u t) as [k|] eqn:E; simpl in H; [|discriminate].
    injection H as <-; exact (IH k eq_refl).
Qed.

Lemma find_index_none u l :
  find_index u l = None <-> forall x, In x l -> username x <> u.
Proof.
  induction l as [|e t IH]; simpl; [split; [intros _ x []|reflexivity]|].
  destruct (String.eqb_spec (username e) u) as [Heq|Hne].
  - split; [discriminate|intros H; exfalso; exact (H e (or_introl eq_refl) Heq)].
  - destruct (find_index u t) eqn:E; simpl.
    + split; [discriminate|intros H; exfalso].
      destruct (find_index_some u t n E) as [x [Hx Hu]].
      exact (H x (or_intror (nth_error_In _ _ Hx)) Hu).
    + split; [|reflexivity]; intros _ x [<-|Hx]; [exact Hne|].
      apply IH; [reflexivity|exact Hx].
Qed.

Lemma find_index_nodup l k x :
  NoDup (map username l) -> nth_error l k = Some x ->
  find_index (username x) l = Some k.
Proof.
  revert k; induction l as [|e t IH]; intros k Hnd Hk; [destruct k; discriminate|].
  simpl in Hnd; inversion Hnd as [|? ? Hnotin Hnd']; subst.
  destruct k as [|k]; simpl in Hk |- *.
  - injection Hk as ->; rewrite String.eqb_refl; reflexivity.
  - destruct (String.eqb_spec (username e) (username x)) as [Heq|_].
    + exfalso; apply Hnotin; rewrite Heq.
      apply in_map, (nth_error_In _ _ Hk).
    + rewrite (IH k Hnd' Hk); reflexivity.
Qed.

Lemma nodup_firstn {A} n (l : list A) : NoDup l -> NoDup (firstn n l).
Proof.
  intros H; rewrite <- (firstn_skipn n l) in H.
  exact (NoDup_app_remove_r _ _ H).
Qed.

End LeaderboardProofs.

Section LeaderboardClaims.
Import Leaderboard.

Lemma map_list_set_same {A B} (f : A -> B) l i x y :
  nth_error l i = Some y -> f y = f x -> map f (list_set l i x) = map f l.
Proof.
  revert i; induction l as [|h t IH]; intros [|i] Hy Hf; simpl in *;
    try discriminate.
  - injection Hy as ->; rewrite Hf; reflexivity.
  - rewrite (IH i Hy Hf); reflexivity.
Qed.

Lemma in_list_set {A} l i (x y : A) : nth_error l i = Some y -> In x (list_set l i x).
Proof.
  revert i; induction l as [|h t IH]; intros [|i] Hy; simpl in *; try discriminate.
  - left; reflexivity.
  - right; exact (IH i Hy).
Qed.

Lemma nodup_map_inj {A B} (f : A -> B) l x y :
  NoDup (map f l) -> In x l -> In y l -> f x = f y -> x = y.
Proof.
  induction l as [|a t IH]; simpl; intros Hnd Hx Hy Hf; [destruct Hx|].
  inversion Hnd as [|? ? Hnotin Hnd']; subst.
  destruct Hx as [<-|Hx], Hy as [<-|Hy]; try reflexivity.
  - exfalso; apply Hnotin; rewrite Hf; apply in_map, Hy.
  - exfalso; apply Hnotin; rewrite <- Hf; apply in_map, Hx.
  - exact (IH Hnd' Hx Hy Hf).
Qed.

(** The common tail of the handler after a replacement or an append. *)
Lemma finish_props full entry :
  NoDup (map username full) -> In entry full ->
  let top := firstn 100 (sort full) in
  let rank := match find_index (username entry) top with
              | Some k => Z.of_nat k + 1 | None => 0 end in
  Permutation (sort full) full /\ Sorted lex_le (sort full)
  /\ (forall k, nth_error top k = Some entry -> rank = Z.of_nat k + 1)
  /\ (~ In entry top -> rank = 0)
  /\ ((100 < length full)%nat -> length top = 100%nat
      /\ forall x y, In x top -> In y (skipn 100 (sort full)) -> lex_le x y).
Proof.
  intros Hnd Hin top rank.
  pose proof (sort_perm full) as Hp.
  assert (Hnds : NoDup (map username (sort full))).
  { apply (Permutation_NoDup (Permutation_map username (Permutation_sym Hp))), Hnd. }
  assert (Hndt : NoDup (map username top)).
  { unfold top; rewrite <- firstn_map; apply nodup_firstn, Hnds. }
  split; [exact Hp|]; split; [apply sort_sorted|].
  split; [|split].
  - intros k Hk; unfold rank; rewrite (find_index_nodup top k entry Hndt Hk).
    reflexivity.
  - intros Hnot; unfold rank.
    destruct (find_index (username entry) top) as [k|] eqn:E; [|reflexivity].
    exfalso; destruct (find_index_some _ _ _ E) as [x [Hx Hu]].
    assert (Hxt : In x top) by exact (nth_error_In _ _ Hx).
    assert (Hxf : In x full).
    { apply (Permutation_in _ Hp).
      unfold top in Hxt; rewrite <- (firstn_skipn 100 (sort full)).
      apply in_or_app; left; exact Hxt. }
    assert (x = entry) as -> by exact (nodup_map_inj username full x entry Hnd Hxf Hin Hu).
    exact (Hnot Hxt).
  - intros Hlen; split.
    + unfold top; rewrite length_firstn, (Permutation_length Hp); lia.
    + intros x y Hx Hy.
      pose proof (Sorted_StronglySorted lex_le_trans (sort_sorted full)) as Hss.
      rewrite <- (firstn_skipn 100 (sort full)) in Hss.
      exact (strongly_sorted_app lex_le _ _ Hss x y Hx Hy).
Qed.

(** C5.  When the table already holds an entry for the submitting user (the
    first one, as [findIndex] finds it), [submit] replaces it, then sorts
    and truncates, exactly when the new [(time, moves)] is lexicographically
    strictly smaller; otherwise it writes nothing and reports
    1 + the number of entries strictly better than the existing one. *)
Theorem submit_existing_entry (table : list LeaderboardEntry)
    (entry existing : LeaderboardEntry) (i : nat) :
  find_index (username entry) table = Some i ->
  nth_error table i = Some existing ->
  (lex_lt entry existing ->
   exists rank, submit table entry
     = (Some (firstn 100 (sort (list_set table i entry))), rank, Submitted))
  /\ (~ lex_lt entry existing ->
      submit table entry
      = (None, Z.of_nat (length (filter (fun e => lex_ltb e existing) table)) + 1,
         ExistingRetained)).
Proof.
  intros Hf Hn; unfold submit; rewrite Hf, Hn.
  destruct (better entry existing) eqn:B; split; intros L.
  - eexists; reflexivity.
  - exfalso; apply L, better_iff, B.
  - exfalso; apply better_iff in L; congruence.
  - unfold count_better.
    rewrite (filter_ext (fun e => lex_ltb e existing) (fun e => better e existing))
      by (intros; apply lex_ltb_better).
    reflexivity.
Qed.

Lemma submit_existing_entry_witness :
  submit [mkEntry "alice" 100 5 3 "2026-10-16"; mkEntry "bob" 90 5 3 "2026-10-16"]
         (mkEntry "alice" 150 10 3 "2026-10-16")
  = (None, 2, ExistingRetained).
Proof.
  destruct (submit_existing_entry
              [mkEntry "alice" 100 5 3 "2026-10-16"; mkEntry "bob" 90 5 3 "2026-10-16"]
              (mkEntry "alice" 150 10 3 "2026-10-16")
              (mkEntry "alice" 100 5 3 "2026-10-16") 0
              ltac:(vm_compute; reflexivity) ltac:(reflexivity)) as [_ H].
  rewrite H; [vm_compute; reflexivity|].
  unfold lex_lt; simpl; lia.
Defined.

(** C6.  For a table with one entry per user name, whenever [submit]
    writes a table, that table is the first 100 entries of the full table
    (the submitter's entry replaced or appended) sorted ascending by
    [(time, moves)]; the rank is 1 + the index of the submitter's entry in
    it (0, [findIndex]'s -1 plus one, when it was truncated out); and a full
    table of more than 100 entries yields exactly 100 entries, none of them
    worse than a dropped one. *)
Theorem submit_sort_truncate_rank (table : list LeaderboardEntry)
    (entry : LeaderboardEntry) (top : list LeaderboardEntry) (rank : Z) (o : outcome) :
  NoDup (map username table) ->
  submit table entry = (Some top, rank, o) ->
  exists full,
    ((exists i existing, find_index (username entry) table = Some i
        /\ nth_error table i = Some existing /\ lex_lt entry existing
        /\ full = list_set table i entry)
     \/ (find_index (username entry) table = None /\ full = table ++ [entry]))
    /\ top = firstn 100 (sort full)
    /\ Permutation (sort full) full /\ Sorted lex_le (sort full)
    /\ (forall k, nth_error top k = Some entry -> rank = Z.of_nat k + 1)
    /\ (~ In entry top -> rank = 0)
    /\ ((100 < length full)%nat -> length top = 100%nat
        /\ forall x y, In x top -> In y (skipn 100 (sort full)) -> lex_le x y).
Proof.
  intros Hnd Hsub; unfold submit in Hsub.
  destruct (find_index (username entry) table) as [i|] eqn:Hf.
  - destruct (find_index_some _ _ _ Hf) as [ex [Hn Hu]].
    rewrite Hn in Hsub.
    destruct (better entry ex) eqn:B; [|discriminate].
    injection Hsub as Htop Hrank _.
    exists (list_set table i entry).
    assert (Hnd' : NoDup (map username (list_set table i entry)))
      by (rewrite (map_list_set_same username table i entry ex Hn Hu); exact Hnd).
    destruct (finish_props (list_set table i entry) entry Hnd'
                (in_list_set table i entry ex Hn)) as [H1 [H2 [H3 [H4 H5]]]].
    subst top rank.
    split; [left; exists i, ex; split; [reflexivity|]; split; [exact Hn|];
            split; [apply better_iff, B|reflexivity]|].
    split; [reflexivity|]; split; [exact H1|]; split; [exact H2|].
    split; [exact H3|]; split; [exact H4|exact H5].
  - injection Hsub as Htop Hrank _.
    exists (table ++ [entry]).
    assert (Hnd' : NoDup (map username (table ++ [entry]))).
    { rewrite map_app; simpl.
      apply (Permutation_NoDup (Permutation_cons_append _ _)).
      constructor; [|exact Hnd].
      intros Hin; apply in_map_iff in Hin; destruct Hin as [x [Hx Hin]].
      exact (proj1 (find_index_none _ _) Hf x Hin Hx). }
    destruct (finish_props (table ++ [entry]) entry Hnd'
                (in_or_app table [entry] entry (or_intror (or_introl eq_refl))))
      as [H1 [H2 [H3 [H4 H5]]]].
    subst top rank.
    split; [right; split; reflexivity|].
    split; [reflexivity|]; split; [exact H1|]; split; [exact H2|].
    split; [exact H3|]; split; [exact H4|exact H5].
Qed.

Lemma submit_sort_truncate_rank_witness :
  let table := [mkEntry "alice" 120 40 3 "2026-10-16"; mkEntry "bob" 110 5 3 "2026-10-16"] in
  let entry := mkEntry "alice" 100 50 3 "2026-10-16" in
  let top := [mkEntry "alice" 100 50 3 "2026-10-16"; mkEntry "bob" 110 5 3 "2026-10-16"] in
  submit table entry = (Some top, 1, Submitted)
  /\ exists full,
    ((exists i existing, find_index (username entry) table = Some i
        /\ nth_error table i = Some existing /\ lex_lt entry existing
        /\ full = list_set table i entry)
     \/ (find_index (username entry) table = None /\ full = table ++ [entry]))
    /\ top = firstn 100 (sort full)
    /\ Permutation (sort full) full /\ Sorted lex_le (sort full)
    /\ (forall k, nth_error top k = Some entry -> 1 = Z.of_nat k + 1)
    /\ (~ In entry top -> 1 = 0)
    /\ ((100 < length full)%nat -> length top = 100%nat
        /\ forall x y, In x top -> In y (skipn 100 (sort full)) -> lex_le x y).
Proof.
  intros table entry top.
  assert (Hs : submit table entry = (Some top, 1, Submitted)) by (vm_compute; reflexivity).
  split; [exact Hs|].
  apply (submit_sort_truncate_rank table entry top 1 Submitted); [|exact Hs].
  simpl; constructor; [simpl; intros [H|[]]; discriminate H|].
  constructor; [intros []|constructor].
Defined.

End LeaderboardClaims.

(** * The claim about difficulty validation *)

Section Validation.
Import Leaderboard.

(** C9 (code bug).  [api.get('/leaderboard')] rejects every parsed
    difficulty outside {3,4,5} before touching the store, but
    [api.post('/submit-score')] only rejects falsy fields: a submission with
    difficulty 7 reads and writes the table [leaderboard:<today>:7]. *)
Theorem submit_score_accepts_difficulty_7 :
  submit_score_handler [] (mkReq (Some 100) (Some 10) (Some 7)) (Some "alice"%string)
    "2026-10-16"
  = (Success 1 "Score submitted successfully",
     [("leaderboard:2026-10-16:7"%string, [mkEntry "alice" 100 10 7 "2026-10-16"])],
     [Get "leaderboard:2026-10-16:7"; SetKey "leaderboard:2026-10-16:7"])
  /\ (forall s date d, d <> Some 3 -> d <> Some 4 -> d <> Some 5 ->
        leaderboard_handler s date d = (None, [])).
Proof.
  split; [vm_compute; reflexivity|].
  intros s date [d|] H3 H4 H5; [|reflexivity]; simpl.
  destruct (Z.eqb_spec d 3); [congruence|].
  destruct (Z.eqb_spec d 4); [congruence|].
  destruct (Z.eqb_spec d 5); [congruence|reflexivity].
Qed.

End Validation.

(** * Further properties of the puzzle engine *)

(** ** Solved boards *)

Lemma all_in_place_iff l k :
  all_in_place l (Z.of_nat k) = true
  <-> l = map Some (map Z.of_nat (seq k (length l))).
Proof.
  revert k; induction l as [|v t IH]; intros k; simpl; [split; reflexivity|].
  destruct v as [v|]; [|split; discriminate].
  rewrite andb_true_iff, Z.eqb_eq.
  replace (Z.of_nat k + 1) with (Z.of_nat (S k)) by lia.
  rewrite IH; split.
  - intros [-> <-]; reflexivity.
  - intros H; injection H as Hv Ht; split; assumption.
Qed.

Lemma nth_seq_grid L j k :
  (k < L)%nat -> nth k (map Some (map Z.of_nat (seq j L))) None = Some (Z.of_nat (j + k)).
Proof.
  revert j k; induction L as [|L IH]; intros j k Hk; [lia|].
  destruct k as [|k]; simpl; [do 2 f_equal; lia|].
  rewrite IH by lia; do 2 f_equal; lia.
Qed.

Lemma isSolved_iff p :
  length (grid p) = Z.to_nat (size p * size p) ->
  isSolved p = true <-> grid p = solvedGrid (size p).
Proof.
  intros Hl; unfold isSolved, solvedGrid, zseq.
  change 0 with (Z.of_nat 0); rewrite all_in_place_iff, Hl; reflexivity.
Qed.

Lemma NoDup_solvedGrid n : NoDup (solvedGrid n).
Proof.
  unfold solvedGrid, zseq.
  apply Finite.Injective_map_NoDup; [intros x y H; injection H; auto|].
  apply Finite.Injective_map_NoDup; [intros x y H; lia|apply seq_NoDup].
Qed.

(** ** A successful move *)

(** What a successful [makeMove] did: both cells were in range, and the
    copy differs from the grid only by the exchange of the two cells. *)
Lemma makeMove_some p t p' :
  makeMove p t = Some p' ->
  size p' = size p /\ emptyIndex p' = t
  /\ 0 <= t < Z.of_nat (length (grid p))
  /\ 0 <= emptyIndex p < Z.of_nat (length (grid p))
  /\ length (grid p') = length (grid p)
  /\ (forall k, nth k (grid p') None
       = if Nat.eqb k (Z.to_nat (emptyIndex p)) then nth (Z.to_nat t) (grid p) None
         else if Nat.eqb k (Z.to_nat t) then nth (Z.to_nat (emptyIndex p)) (grid p) None
         else nth k (grid p) None)
  /\ grid p' = list_set (list_set (grid p) (Z.to_nat t) (nth (Z.to_nat (emptyIndex p)) (grid p) None))
                 (Z.to_nat (emptyIndex p)) (nth (Z.to_nat t) (grid p) None).
Proof.
  destruct p as [g e n]; unfold makeMove; simpl.
  destruct (isValidMove _ t); simpl; [|discriminate].
  destruct (arr_get (arr_of g) t) as [tv|] eqn:Et; [|discriminate].
  destruct (arr_get (arr_of g) e) as [ev|] eqn:Ee; [|discriminate].
  intros H; injection H as <-; simpl.
  pose proof (arr_get_of_some _ _ _ Et) as Ht.
  pose proof (arr_get_of_some _ _ _ Ee) as He.
  destruct (arr_of_swap_nth g t e tv ev O Et Ee) as [G _].
  split; [reflexivity|]; split; [reflexivity|]; split; [exact Ht|]; split; [exact He|].
  split; [rewrite G, !length_list_set; reflexivity|].
  split.
  - intros k; rewrite (proj2 (arr_of_swap_nth g t e tv ev k Et Ee)).
    rewrite arr_get_nonneg in Et, Ee by lia. rewrite Et, Ee. reflexivity.
  - rewrite G. rewrite arr_get_nonneg in Et, Ee by lia. rewrite Et, Ee. reflexivity.
Qed.

Lemma getAdjacentIndices_neq s t e : 0 < s -> In e (getAdjacentIndices t s) -> e <> t.
Proof.
  intros Hs; unfold getAdjacentIndices; rewrite !in_app_iff.
  repeat match goal with |- context [if ?c then _ else _] => destruct c end;
    simpl; intros H;
    repeat match goal with
    | H : _ \/ _ |- _ => destruct H
    | H : False |- _ => destruct H
    end; lia.
Qed.

Lemma makeMove_valid p t p' :
  makeMove p t = Some p' -> In (emptyIndex p) (getAdjacentIndices t (size p)).
Proof.
  unfold makeMove, isValidMove.
  destruct (existsb _ _) eqn:V; simpl; [|discriminate].
  intros _; apply existsb_eqb_in, V.
Qed.

(** ** The parity of the inversions under a move *)

Section Parity.
Import Inversions.

Lemma count_after_filt x emp l : count_after x emp l = cnt x (filt emp l).
Proof.
  induction l as [|[y|] t IH]; simpl; [reflexivity| |exact IH].
  destruct (Z.eqb y emp); simpl; rewrite IH; reflexivity.
Qed.

Lemma count_inv_filt emp l : count_inv emp l = inv (filt emp l).
Proof.
  induction l as [|[y|] t IH]; simpl; [reflexivity| |exact IH].
  destruct (Z.eqb y emp); simpl; rewrite IH, ?count_after_filt; reflexivity.
Qed.

Lemma filt_app emp a b : filt emp (a ++ b) = filt emp a ++ filt emp b.
Proof.
  induction a as [|[y|] t IH]; simpl; [reflexivity| |exact IH].
  destruct (Z.eqb y emp); simpl; rewrite IH; reflexivity.
Qed.

Lemma cnt_app x a b : cnt x (a ++ b) = cnt x a + cnt x b.
Proof. induction a as [|y t IH]; simpl; [reflexivity|rewrite IH; lia]. Qed.

Lemma inv_app a b : inv (a ++ b) = inv a + inv b + cross a b.
Proof.
  induction a as [|x t IH]; simpl; [unfold cross; simpl; lia|].
  unfold cross in *; simpl; rewrite cnt_app, IH; lia.
Qed.

Lemma cross_move a v B C : cross a (v :: B ++ C) = cross a (B ++ v :: C).
Proof.
  induction a as [|x t IH]; [reflexivity|].
  unfold cross in *; cbn [fold_right]; rewrite IH.
  change (cnt x (v :: B ++ C)) with ((if x >? v then 1 else 0) + cnt x (B ++ C)).
  rewrite !cnt_app; simpl; lia.
Qed.

Lemma cross_cons_right B v C : cross B (v :: C) = cnt_gt v B + cross B C.
Proof.
  induction B as [|x t IH]; [reflexivity|].
  unfold cross in *; cbn [fold_right cnt_gt]; rewrite IH.
  change (cnt x (v :: C)) with ((if x >? v then 1 else 0) + cnt x C).
  destruct (Z.gtb_spec x v); lia.
Qed.

Lemma cnt_cnt_gt v B : ~ In v B -> cnt v B + cnt_gt v B = Z.of_nat (length B).
Proof.
  induction B as [|y t IH]; intros Hn; [reflexivity|].
  cbn [cnt cnt_gt length]; rewrite Nat2Z.inj_succ.
  assert (y <> v) by (intros ->; apply Hn; left; reflexivity).
  rewrite <- IH by (intros H'; apply Hn; right; exact H').
  destruct (Z.gtb_spec v y), (Z.gtb_spec y v); lia.
Qed.

Lemma cnt_gt_nonneg v B : 0 <= cnt_gt v B.
Proof. induction B as [|y t IH]; simpl; [lia|destruct (y >? v); lia]. Qed.

Lemma cnt_gt_le v B : cnt_gt v B <= Z.of_nat (length B).
Proof. induction B as [|y t IH]; simpl; [lia|destruct (y >? v); lia]. Qed.

(** Moving [v] in front of [B] changes the inversions by [|B| - 2 * k]. *)
Lemma inv_slide v B C :
  ~ In v B -> inv (v :: B ++ C) = inv (B ++ v :: C) + Z.of_nat (length B) - 2 * cnt_gt v B.
Proof.
  intros Hn.
  change (inv (v :: B ++ C)) with (cnt v (B ++ C) + inv (B ++ C)).
  rewrite inv_app, inv_app, cross_cons_right, cnt_app.
  change (inv (v :: C)) with (cnt v C + inv C).
  pose proof (cnt_cnt_gt v B Hn); lia.
Qed.

Lemma filt_in emp y l : In y (filt emp l) -> In (Some y) l.
Proof.
  induction l as [|[z|] t IH]; simpl; [tauto| |intros H; right; auto].
  destruct (Z.eqb z emp); simpl; [intros H; right; auto|].
  intros [->|H]; [left; reflexivity|right; auto].
Qed.

Lemma length_filt emp (l : list jsval) :
  ~ In None l -> ~ In (Some emp) l -> length (filt emp l) = length l.
Proof.
  induction l as [|[z|] t IH]; simpl; intros H1 H2; [reflexivity| |tauto].
  destruct (Z.eqb_spec z emp) as [->|]; [tauto|simpl; rewrite IH; tauto].
Qed.

Lemma count_inv_nonneg emp l : 0 <= count_inv emp l.
Proof.
  assert (forall x t, 0 <= count_after x emp t)
    by (intros x t; induction t as [|[y|] t IH]; simpl;
        [lia|destruct (Z.eqb y emp), (x >? y); lia|exact IH]).
  induction l as [|[y|] t IH]; simpl; [lia| |exact IH].
  destruct (Z.eqb y emp); [lia|specialize (H y t); lia].
Qed.

(** Exchanging the empty cell with a tile [v] [|B|] cells away. *)
Lemma count_inv_swap emp (A B C : list jsval) v :
  v <> emp -> ~ In (Some v) B -> ~ In (Some emp) B -> ~ In None B ->
  count_inv emp (A ++ Some v :: B ++ Some emp :: C)
  = count_inv emp (A ++ Some emp :: B ++ Some v :: C)
    + Z.of_nat (length B) - 2 * cnt_gt v (filt emp B).
Proof.
  intros Hv HvB HeB HnB.
  assert (Hve : (v =? emp) = false) by (apply Z.eqb_neq; exact Hv).
  assert (E1 : filt emp (A ++ Some v :: B ++ Some emp :: C)
               = filt emp A ++ v :: filt emp B ++ filt emp C)
    by (rewrite filt_app; cbn [filt]; rewrite Hve, filt_app; cbn [filt];
        rewrite Z.eqb_refl; reflexivity).
  assert (E2 : filt emp (A ++ Some emp :: B ++ Some v :: C)
               = filt emp A ++ filt emp B ++ v :: filt emp C)
    by (rewrite filt_app; cbn [filt]; rewrite Z.eqb_refl, filt_app; cbn [filt];
        rewrite Hve; reflexivity).
  rewrite !count_inv_filt, E1, E2, (inv_app (filt emp A)), (inv_app (filt emp A)).
  rewrite cross_move.
  rewrite inv_slide by (intros H; apply HvB, (filt_in emp), H).
  rewrite length_filt by assumption; lia.
Qed.

End Parity.

Lemma split2 {X} (l : list X) i j d :
  (i < j)%nat -> (j < length l)%nat ->
  exists A B C, l = A ++ nth i l d :: B ++ nth j l d :: C
    /\ length A = i /\ (length A + S (length B) = j)%nat.
Proof.
  intros Hij Hj.
  destruct (nth_split l d Hj) as [L1 [C [E1 H1]]].
  assert (Hi : (i < length L1)%nat) by lia.
  destruct (nth_split L1 d Hi) as [A [B [E2 H2]]].
  exists A, B, C.
  assert (nth i l d = nth i L1 d) as ->
    by (rewrite E1, app_nth1 by lia; reflexivity).
  split; [|split; [exact H2|]].
  - rewrite E1 at 1; rewrite E2 at 1; rewrite <- app_assoc; reflexivity.
  - rewrite E2 in H1; rewrite length_app in H1; simpl in H1; lia.
Qed.

Lemma list_set_mid {X} (L R : list X) z w : list_set (L ++ z :: R) (length L) w = L ++ w :: R.
Proof. induction L as [|h t IH]; simpl; [reflexivity|rewrite IH; reflexivity]. Qed.

Lemma list_set_swap_shape {X} (A B C : list X) x y x' y' :
  list_set (list_set (A ++ x :: B ++ y :: C) (length A) x') (length A + S (length B)) y'
  = A ++ x' :: B ++ y' :: C
  /\ list_set (list_set (A ++ x :: B ++ y :: C) (length A + S (length B)) y') (length A) x'
  = A ++ x' :: B ++ y' :: C.
Proof.
  assert (E : forall u, A ++ u :: B ++ y :: C = (A ++ u :: B) ++ y :: C)
    by (intros u; rewrite <- app_assoc; reflexivity).
  assert (Hl : forall u, length (A ++ u :: B) = (length A + S (length B))%nat)
    by (intros u; rewrite length_app; reflexivity).
  split.
  - rewrite list_set_mid, E, <- (Hl x'), list_set_mid, <- app_assoc; reflexivity.
  - rewrite E, <- (Hl x), list_set_mid, <- app_assoc; simpl.
    rewrite list_set_mid; reflexivity.
Qed.

Lemma NoDup_nth_eq {X} (l : list X) d i j :
  NoDup l -> (i < length l)%nat -> (j < length l)%nat -> nth i l d = nth j l d -> i = j.
Proof. intros H; apply (proj1 (NoDup_nth l d) H). Qed.

Lemma nth_some_lt {X} (l : list (option X)) k x : nth k l None = Some x -> (k < length l)%nat.
Proof.
  intros H; destruct (Nat.lt_ge_cases k (length l)) as [|Hk]; [assumption|].
  rewrite nth_overflow in H by exact Hk; discriminate.
Qed.

Lemma index_of_nodup l k x :
  NoDup l -> nth k l None = Some x -> index_of l x = Z.of_nat k.
Proof.
  intros Hd Hk.
  pose proof (nth_some_lt _ _ _ Hk) as Hl.
  assert (Hin : In (Some x) l) by (rewrite <- Hk; apply nth_In; exact Hl).
  destruct (index_of_from_spec l x 0 Hin) as [H1 H2].
  rewrite Z.sub_0_r in H1, H2.
  pose proof (nth_some_lt _ _ _ H2) as Hl2.
  assert (Z.to_nat (index_of_from l x 0) = k)
    by (apply (NoDup_nth_eq l None); [exact Hd|exact Hl2|exact Hl|congruence]).
  unfold index_of; lia.
Qed.

Lemma inv_nodup p : puzzle_inv p -> NoDup (grid p).
Proof.
  intros [Hp _]; apply (Permutation_NoDup (Permutation_sym Hp)), NoDup_solvedGrid.
Qed.

Lemma inv_length p : puzzle_inv p -> length (grid p) = Z.to_nat (size p * size p).
Proof. intros [Hp _]; rewrite (Permutation_length Hp); apply length_solvedGrid. Qed.

Lemma inv_empty_cell p :
  puzzle_inv p -> 0 <= emptyIndex p
  /\ nth (Z.to_nat (emptyIndex p)) (grid p) None = Some (size p * size p - 1).
Proof.
  intros [Hp He]; pose proof (arr_get_of_some _ _ _ He).
  rewrite arr_get_nonneg in He by lia; split; [lia|exact He].
Qed.

Lemma inv_index_of p :
  puzzle_inv p -> index_of (grid p) (size p * size p - 1) = emptyIndex p.
Proof.
  intros Hi; destruct (inv_empty_cell p Hi) as [H0 He].
  rewrite (index_of_nodup _ _ _ (inv_nodup p Hi) He); lia.
Qed.

Lemma inv_no_none p : puzzle_inv p -> ~ In None (grid p).
Proof.
  intros [Hp _] Hin; apply (none_notin_solvedGrid (size p)), (Permutation_in _ Hp), Hin.
Qed.

Lemma rem2_eqb a : 0 <= a -> (Z.rem a 2 =? 0) = Z.even a.
Proof.
  intros Ha; rewrite Z.rem_mod_nonneg, Zmod_even by lia.
  destruct (Z.even a); reflexivity.
Qed.

Lemma isSolvable_parity g n :
  0 < n -> 0 <= index_of g (n * n - 1) ->
  isSolvable g n
  = if Z.odd n then Z.even (count_inv (n * n - 1) g)
    else Z.even (count_inv (n * n - 1) g + index_of g (n * n - 1) / n).
Proof.
  intros Hn Hi; unfold isSolvable, countInversions, getEmptyRow.
  pose proof (count_inv_nonneg (n * n - 1) g).
  assert (0 <= index_of g (n * n - 1) / n) by (apply Z.div_pos; lia).
  rewrite Z.rem_mod_nonneg, Zmod_odd by lia.
  destruct (Z.odd n); simpl; apply rem2_eqb; lia.
Qed.

Lemma even_shift a b c : b = a + 2 * c -> Z.even b = Z.even a.
Proof. intros ->; apply Z.even_add_mul_2. Qed.

(** The geometry of a move: the two cells are one apart in a row, or [n]
    apart in a column. *)
Lemma move_distance n t e :
  0 < n -> orth_adjacent n t e = true ->
  (Z.abs (t - e) = 1 /\ t / n = e / n) \/ (Z.abs (t - e) = n /\ Z.abs (t / n - e / n) = 1).
Proof.
  intros Hn H; apply orth_adjacent_iff in H.
  destruct H as [_ [_ [[Hq Hr]|[Hr Hq]]]].
  - left; split; [|exact Hq].
    rewrite (Z.div_mod t n), (Z.div_mod e n) by lia; rewrite Hq; lia.
  - right; split; [|exact Hq].
    rewrite (Z.div_mod t n), (Z.div_mod e n) by lia; rewrite Hr.
    destruct (Z.abs_spec (t / n - e / n)) as [[_ E]|[_ E]]; nia.
Qed.

Lemma parity_step n ci ci' b k rt re :
  ci' = ci + b - 2 * k ->
  ((b = 0 /\ rt = re) \/ (b = n - 1 /\ Z.abs (rt - re) = 1)) ->
  (if Z.odd n then Z.even ci' else Z.even (ci' + rt))
  = (if Z.odd n then Z.even ci else Z.even (ci + re)).
Proof.
  intros Hc Hb; destruct (Z.odd n) eqn:Ho.
  - apply Z.odd_spec in Ho; destruct Ho as [m Hm].
    destruct Hb as [[Hb _]|[Hb _]];
      [apply (even_shift ci ci' (- k))|apply (even_shift ci ci' (m - k))]; lia.
  - assert (He : Z.even n = true) by (rewrite <- Z.negb_odd, Ho; reflexivity).
    apply Z.even_spec in He; destruct He as [m Hm].
    destruct Hb as [[Hb Hr]|[Hb Hr]];
      [apply (even_shift (ci + re) (ci' + rt) (- k)); lia|].
    destruct (Z.abs_spec (rt - re)) as [[_ E]|[_ E]];
      [apply (even_shift (ci + re) (ci' + rt) (m - k))
      |apply (even_shift (ci + re) (ci' + rt) (m - k - 1))]; lia.
Qed.

Lemma nodup_mid {X} (A B C : list X) x y :
  NoDup (A ++ x :: B ++ y :: C) -> ~ In x B /\ ~ In y B.
Proof.
  intros H; apply NoDup_app_remove_l in H.
  apply NoDup_cons_iff in H; destruct H as [Hx H].
  split; [intros Hin; apply Hx, in_or_app; left; exact Hin|].
  intros Hin; apply (NoDup_remove_2 _ _ _ H), in_or_app; left; exact Hin.
Qed.

Lemma none_notin_mid {X} (A B C : list (option X)) x y :
  ~ In None (A ++ x :: B ++ y :: C) -> ~ In None B.
Proof.
  intros H Hin; apply H, in_or_app; right; right; apply in_or_app; left; exact Hin.
Qed.

(** The inversions after a move differ from those before by the number of
    cells strictly between the two exchanged cells, up to an even number. *)
Lemma count_inv_move p t p' :
  0 < size p -> puzzle_inv p -> makeMove p t = Some p' ->
  exists k, count_inv (size p * size p - 1) (grid p')
    = count_inv (size p * size p - 1) (grid p) + (Z.abs (t - emptyIndex p) - 1) - 2 * k.
Proof.
  intros Hn Hi Hm.
  destruct (makeMove_some p t p' Hm) as [_ [_ [Ht [He [_ [_ Hg]]]]]].
  pose proof (getAdjacentIndices_neq _ _ _ Hn (makeMove_valid p t p' Hm)) as Hte.
  pose proof (inv_nodup p Hi) as Hd.
  pose proof (inv_no_none p Hi) as Hnn.
  destruct (inv_empty_cell p Hi) as [_ Hev].
  destruct p as [g e n]; cbn [grid emptyIndex size] in *.
  set (emp := n * n - 1) in *; clearbody emp.
  destruct (nth (Z.to_nat t) g None) as [tv|] eqn:Htv;
    [|exfalso; apply Hnn; rewrite <- Htv; apply nth_In; lia].
  assert (Hne : tv <> emp)
    by (intros ->; apply Hte; assert (Z.to_nat e = Z.to_nat t); [|lia];
        apply (NoDup_nth_eq g None); [exact Hd|lia|lia|congruence]).
  rewrite ?Htv, Hev in Hg.
  destruct (Nat.lt_total (Z.to_nat e) (Z.to_nat t)) as [Hlt|[Heq|Hlt]]; [| lia |].
  - destruct (split2 g (Z.to_nat e) (Z.to_nat t) None Hlt ltac:(lia))
      as [A [B [C [Eg [HA HB]]]]].
    rewrite Hev, Htv in Eg.
    rewrite Eg, <- HB, <- HA, (proj2 (list_set_swap_shape A B C _ _ _ _)) in Hg.
    rewrite Eg in Hd, Hnn; destruct (nodup_mid _ _ _ _ _ Hd) as [H1 H2].
    exists (Inversions.cnt_gt tv (Inversions.filt emp B)).
    rewrite Hg, Eg, count_inv_swap;
      [unfold jsval in *; lia|exact Hne|exact H2|exact H1|exact (none_notin_mid _ _ _ _ _ Hnn)].
  - destruct (split2 g (Z.to_nat t) (Z.to_nat e) None Hlt ltac:(lia))
      as [A [B [C [Eg [HA HB]]]]].
    rewrite Hev, Htv in Eg.
    rewrite Eg, <- HB, <- HA, (proj1 (list_set_swap_shape A B C _ _ _ _)) in Hg.
    rewrite Eg in Hd, Hnn; destruct (nodup_mid _ _ _ _ _ Hd) as [H1 H2].
    exists (Z.of_nat (length B) - Inversions.cnt_gt tv (Inversions.filt emp B)).
    rewrite Hg, Eg, count_inv_swap;
      [unfold jsval in *; lia|exact Hne|exact H1|exact H2|exact (none_notin_mid _ _ _ _ _ Hnn)].
Qed.

Lemma isSolvable_move p t p' :
  0 < size p -> puzzle_inv p -> makeMove p t = Some p' ->
  isSolvable (grid p') (size p') = isSolvable (grid p) (size p).
Proof.
  intros Hn Hi Hm.
  pose proof (makeMove_inv_step p t p' Hi Hm) as Hi'.
  pose proof (inv_index_of p Hi) as Ix.
  pose proof (inv_index_of p' Hi') as Ix'.
  destruct (count_inv_move p t p' Hn Hi Hm) as [k Hk].
  destruct (makeMove_some p t p' Hm) as [Hs [He' [Ht [He _]]]].
  pose proof (makeMove_valid p t p' Hm) as Hadj.
  rewrite (inv_length p Hi) in Ht, He.
  rewrite Hs, He' in Ix'.
  rewrite Hs, (isSolvable_parity (grid p') (size p) Hn ltac:(lia)).
  rewrite (isSolvable_parity (grid p) (size p) Hn ltac:(lia)).
  rewrite Ix, Ix'.
  apply (getAdjacentIndices_iff (size p) t (emptyIndex p) Hn ltac:(lia)) in Hadj.
  apply (parity_step _ _ _ (Z.abs (t - emptyIndex p) - 1) k); [exact Hk|].
  destruct (move_distance _ _ _ Hn Hadj) as [[H1 H2]|[H1 H2]]; [left|right]; lia.
Qed.

Lemma count_inv_seq emp L k :
  count_inv emp (map Some (map Z.of_nat (seq k L))) = 0.
Proof.
  assert (Ha : forall x L k, x < Z.of_nat k ->
            count_after x emp (map Some (map Z.of_nat (seq k L))) = 0).
  { intros x L0; induction L0 as [|L0 IH]; intros k0 Hx; [reflexivity|].
    simpl; rewrite IH by lia.
    destruct (Z.eqb _ emp); [reflexivity|].
    destruct (Z.gtb_spec x (Z.of_nat k0)); lia. }
  revert k; induction L as [|L IH]; intros k; [reflexivity|].
  simpl; rewrite IH, Ha by lia.
  destruct (Z.eqb _ emp); reflexivity.
Qed.

Lemma isSolvable_solved n : 0 < n -> isSolvable (solvedGrid n) n = Z.odd n.
Proof.
  intros Hn.
  assert (Hl : (Z.to_nat (n * n - 1) < Z.to_nat (n * n))%nat) by nia.
  assert (Hx : nth (Z.to_nat (n * n - 1)) (solvedGrid n) None = Some (n * n - 1)).
  { unfold solvedGrid, zseq; rewrite nth_seq_grid by exact Hl. do 2 f_equal; lia. }
  pose proof (index_of_nodup _ _ _ (NoDup_solvedGrid n) Hx) as Ix.
  rewrite isSolvable_parity by (exact Hn || lia).
  assert (Hp : 0 <= n * n - 1) by nia.
  rewrite Ix, Z2Nat.id by exact Hp; unfold solvedGrid, zseq; rewrite count_inv_seq.
  replace ((n * n - 1) / n) with (n - 1)
    by (symmetry; exact (proj1 (divmod_of n (n * n - 1) (n - 1) (n - 1) Hn ltac:(lia) ltac:(ring)))).
  destruct (Z.odd n) eqn:Ho; [reflexivity|].
  rewrite Z.add_0_l, Z.sub_1_r, Z.even_pred; exact Ho.
Qed.

Lemma created_inv n seed :
  (n = 3 \/ n = 4 \/ n = 5) -> 0 <= seed -> puzzle_inv (createShuffledPuzzle n seed).
Proof.
  intros Hn Hseed.
  destruct (createShuffledPuzzle_spec n seed Hn Hseed) as [Hp _].
  unfold puzzle_inv.
  change (size (createShuffledPuzzle n seed)) with n.
  change (emptyIndex (createShuffledPuzzle n seed))
    with (index_of (grid (createShuffledPuzzle n seed)) (n * n - 1)).
  split; [exact Hp|].
  apply index_of_spec, (Permutation_in _ (Permutation_sym Hp)), in_solvedGrid; nia.
Qed.

(** On an even board that [isSolvable] accepts, a move keeps the invariant
    and the acceptance, and never produces the solved board. *)
Lemma even_move_step p t p' :
  0 < size p -> Z.even (size p) = true -> puzzle_inv p ->
  isSolvable (grid p) (size p) = true -> makeMove p t = Some p' ->
  puzzle_inv p' /\ size p' = size p /\ isSolvable (grid p') (size p') = true
  /\ isSolved p' = false.
Proof.
  intros Hn Hev Hi Hs Hm.
  pose proof (makeMove_inv_step p t p' Hi Hm) as Hi'.
  destruct (makeMove_some p t p' Hm) as [Hsz _].
  assert (Hs' : isSolvable (grid p') (size p') = true)
    by (rewrite (isSolvable_move p t p' Hn Hi Hm); exact Hs).
  do 3 (split; [assumption|]).
  destruct (isSolved p') eqn:Hv; [|reflexivity].
  apply (isSolved_iff p' (inv_length p' Hi')) in Hv.
  rewrite Hv, Hsz, isSolvable_solved, <- Z.negb_even, Hev in Hs' by exact Hn.
  discriminate.
Qed.

Section Clicks.
Import Game.

Lemma clicks_unsolved p m taps :
  0 < size p -> Z.even (size p) = true -> puzzle_inv p ->
  isSolvable (grid p) (size p) = true ->
  let '(st', calls) := clicks (mkGame (Some p) false m) taps in
  solved st' = false /\ ~ In ShowSolvedOverlay calls.
Proof.
  revert p m; induction taps as [|t ts IH]; intros p m Hn Hev Hi Hs.
  - simpl; split; [reflexivity|tauto].
  - cbn [clicks]; unfold handleTileClick; cbn [puzzle solved moves].
    destruct (makeMove p t) as [np|] eqn:Hm.
    + destruct (even_move_step p t np Hn Hev Hi Hs Hm) as [Hi' [Hsz [Hs' Hv]]].
      rewrite Hv.
      specialize (IH np (m + 1) ltac:(lia) ltac:(rewrite Hsz; exact Hev) Hi' Hs').
      destruct (clicks (mkGame (Some np) false (m + 1)) ts) as [g2 c2].
      destruct IH as [H1 H2]; split; [exact H1|].
      rewrite !in_app_iff; intros [Hc|Hc]; [|exact (H2 Hc)].
      destruct (m + 1 =? 1); simpl in Hc; intuition discriminate.
    + specialize (IH p m Hn Hev Hi Hs).
      destruct (clicks (mkGame (Some p) false m) ts) as [g2 c2].
      simpl; exact IH.
Qed.

End Clicks.

(** X1.  For a grid of [size²] cells, [isSolved] holds exactly when the grid
    is the solved board [0 .. size²-1]. *)
Theorem isSolved_iff_solvedGrid (p : PuzzleState) :
  length (grid p) = Z.to_nat (size p * size p) ->
  isSolved p = true <-> grid p = solvedGrid (size p).
Proof. exact (isSolved_iff p). Qed.

Lemma isSolved_iff_solvedGrid_witness :
  length (grid (mkPuzzle (solvedGrid 3) 8 3)) = Z.to_nat (3 * 3)
  /\ (isSolved (mkPuzzle (solvedGrid 3) 8 3) = true <-> solvedGrid 3 = solvedGrid 3).
Proof.
  split; [reflexivity|].
  apply (isSolved_iff_solvedGrid (mkPuzzle (solvedGrid 3) 8 3)); reflexivity.
Defined.

(** X2.  A successful [makeMove] keeps the size, makes the tapped cell the
    new empty cell, and exchanges the contents of the tapped cell and the old
    empty cell (both inside the grid); every other cell is unchanged. *)
Theorem makeMove_swaps_two_cells (p : PuzzleState) (t : Z) (p' : PuzzleState) :
  makeMove p t = Some p' ->
  size p' = size p /\ emptyIndex p' = t
  /\ 0 <= t < Z.of_nat (length (grid p))
  /\ 0 <= emptyIndex p < Z.of_nat (length (grid p))
  /\ length (grid p') = length (grid p)
  /\ (forall k, nth k (grid p') None
       = if Nat.eqb k (Z.to_nat (emptyIndex p)) then nth (Z.to_nat t) (grid p) None
         else if Nat.eqb k (Z.to_nat t) then nth (Z.to_nat (emptyIndex p)) (grid p) None
         else nth k (grid p) None).
Proof.
  intros Hm; destruct (makeMove_some p t p' Hm) as [H1 [H2 [H3 [H4 [H5 [H6 _]]]]]].
  repeat (split; [assumption|]); exact H6.
Qed.

Lemma makeMove_swaps_two_cells_witness :
  let p := mkPuzzle (solvedGrid 3) 8 3 in
  let p' := mkPuzzle [Some 0; Some 1; Some 2; Some 3; Some 4; Some 8;
                      Some 6; Some 7; Some 5] 5 3 in
  makeMove p 5 = Some p'
  /\ size p' = size p /\ emptyIndex p' = 5
  /\ 0 <= 5 < Z.of_nat (length (grid p))
  /\ 0 <= emptyIndex p < Z.of_nat (length (grid p))
  /\ length (grid p') = length (grid p)
  /\ (forall k, nth k (grid p') None
       = if Nat.eqb k (Z.to_nat (emptyIndex p)) then nth (Z.to_nat 5) (grid p) None
         else if Nat.eqb k (Z.to_nat 5) then nth (Z.to_nat (emptyIndex p)) (grid p) None
         else nth k (grid p) None).
Proof.
  intros p p'.
  assert (Hm : makeMove p 5 = Some p') by (vm_compute; reflexivity).
  split; [exact Hm|].
  exact (makeMove_swaps_two_cells p 5 p' Hm).
Defined.

(** X3.  A move made on the solved board never leaves a solved board. *)
Theorem makeMove_from_solved_not_solved (p : PuzzleState) (t : Z) (p' : PuzzleState) :
  0 < size p -> isSolved p = true -> makeMove p t = Some p' -> isSolved p' = false.
Proof.
  intros Hn Hs Hm.
  destruct (makeMove_some p t p' Hm) as [_ [_ [Ht [He [Hl [Hnth _]]]]]].
  pose proof (getAdjacentIndices_neq _ _ _ Hn (makeMove_valid p t p' Hm)) as Hte.
  unfold isSolved in *; change 0 with (Z.of_nat 0) in *.
  apply all_in_place_iff in Hs.
  destruct (all_in_place (grid p') (Z.of_nat 0)) eqn:Hs'; [|reflexivity].
  apply all_in_place_iff in Hs'.
  specialize (Hnth (Z.to_nat t)).
  rewrite Nat.eqb_refl in Hnth.
  destruct (Nat.eqb_spec (Z.to_nat t) (Z.to_nat (emptyIndex p))); [lia|].
  rewrite Hs', Hs, !nth_seq_grid in Hnth by lia.
  injection Hnth; lia.
Qed.

Lemma makeMove_from_solved_not_solved_witness :
  0 < 3 /\ isSolved (mkPuzzle (solvedGrid 3) 8 3) = true
  /\ makeMove (mkPuzzle (solvedGrid 3) 8 3) 7
     = Some (mkPuzzle [Some 0; Some 1; Some 2; Some 3; Some 4; Some 5;
                       Some 6; Some 8; Some 7] 7 3)
  /\ isSolved (mkPuzzle [Some 0; Some 1; Some 2; Some 3; Some 4; Some 5;
                         Some 6; Some 8; Some 7] 7 3) = false.
Proof.
  assert (Hm : makeMove (mkPuzzle (solvedGrid 3) 8 3) 7
     = Some (mkPuzzle [Some 0; Some 1; Some 2; Some 3; Some 4; Some 5;
                       Some 6; Some 8; Some 7] 7 3)) by (vm_compute; reflexivity).
  split; [lia|]; split; [reflexivity|]; split; [exact Hm|].
  refine (makeMove_from_solved_not_solved _ 7 _ _ _ Hm); [simpl; lia|reflexivity].
Defined.

(** X4.  For a cell on the grid, every index [getAdjacentIndices] lists is
    another cell on the grid, and that cell lists the first one back. *)
Theorem getAdjacentIndices_on_grid_sym (s t e : Z) :
  0 < s -> 0 <= t < s * s -> In e (getAdjacentIndices t s) ->
  0 <= e < s * s /\ e <> t /\ In t (getAdjacentIndices e s).
Proof.
  intros Hs Ht Hin.
  pose proof (getAdjacentIndices_neq s t e Hs Hin) as Hne.
  apply (getAdjacentIndices_iff s t e Hs Ht) in Hin.
  pose proof Hin as Hin'; apply orth_adjacent_iff in Hin'.
  destruct Hin' as [_ [He _]].
  split; [exact He|]; split; [exact Hne|].
  apply (getAdjacentIndices_iff s e t Hs He); rewrite orth_adjacent_sym; exact Hin.
Qed.

Lemma getAdjacentIndices_on_grid_sym_witness :
  0 < 3 /\ 0 <= 4 < 3 * 3 /\ In 1 (getAdjacentIndices 4 3)
  /\ (0 <= 1 < 3 * 3 /\ 1 <> 4 /\ In 4 (getAdjacentIndices 1 3)).
Proof.
  assert (H : In 1 (getAdjacentIndices 4 3)) by (simpl; tauto).
  split; [lia|]; split; [lia|]; split; [exact H|].
  apply getAdjacentIndices_on_grid_sym; [lia|lia|exact H].
Defined.

(** X5.  On a board satisfying the [PuzzleState] invariant, a successful
    [makeMove] never changes the verdict of [isSolvable]. *)
Theorem isSolvable_preserved_by_makeMove (p : PuzzleState) (t : Z) (p' : PuzzleState) :
  0 < size p -> puzzle_inv p -> makeMove p t = Some p' ->
  isSolvable (grid p') (size p') = isSolvable (grid p) (size p).
Proof. exact (isSolvable_move p t p'). Qed.

Lemma isSolvable_preserved_by_makeMove_witness :
  let p := mkPuzzle (solvedGrid 4) 15 4 in
  let p' := mkPuzzle (elems (fallback_grid 4)) 14 4 in
  0 < size p /\ puzzle_inv p /\ makeMove p 14 = Some p'
  /\ isSolvable (grid p') (size p') = isSolvable (grid p) (size p).
Proof.
  intros p p'.
  assert (Hi : puzzle_inv p) by (split; [reflexivity|vm_compute; reflexivity]).
  assert (Hm : makeMove p 14 = Some p') by (vm_compute; reflexivity).
  split; [simpl; lia|]; split; [exact Hi|]; split; [exact Hm|].
  apply (isSolvable_preserved_by_makeMove p 14 p'); [simpl; lia|exact Hi|exact Hm].
Defined.

(** X6.  [isSolvable] accepts the solved board of size [n] exactly when [n]
    is odd: it rejects the solved 4x4 board. *)
Theorem isSolvable_solvedGrid (n : Z) : 0 < n -> isSolvable (solvedGrid n) n = Z.odd n.
Proof. exact (isSolvable_solved n). Qed.

Lemma isSolvable_solvedGrid_witness : 0 < 4 /\ isSolvable (solvedGrid 4) 4 = Z.odd 4.
Proof. split; [lia|apply (isSolvable_solvedGrid 4); lia]. Defined.

(** X7.  On an even-sized board satisfying the [PuzzleState] invariant that
    [isSolvable] accepts, no sequence of tile clicks ever marks the game
    solved or shows the solved overlay. *)
Theorem clicks_never_solve_even (p : PuzzleState) (m : Z) (taps : list Z) :
  0 < size p -> Z.even (size p) = true -> puzzle_inv p ->
  isSolvable (grid p) (size p) = true ->
  let '(st', calls) := Game.clicks (Game.mkGame (Some p) false m) taps in
  Game.solved st' = false /\ ~ In Game.ShowSolvedOverlay calls.
Proof. exact (clicks_unsolved p m taps). Qed.

Lemma clicks_never_solve_even_witness :
  let p := createShuffledPuzzle 4 20261016 in
  0 < size p /\ Z.even (size p) = true /\ puzzle_inv p
  /\ isSolvable (grid p) (size p) = true
  /\ (let '(st', calls) := Game.clicks (Game.mkGame (Some p) false 0) [3; 2; 6; 7] in
      Game.solved st' = false /\ ~ In Game.ShowSolvedOverlay calls).
Proof.
  intros p.
  assert (Hi : puzzle_inv p) by (apply created_inv; lia).
  assert (Hs : isSolvable (grid p) (size p) = true) by (vm_compute; reflexivity).
  split; [vm_compute; reflexivity|]; split; [reflexivity|].
  split; [exact Hi|]; split; [exact Hs|].
  apply clicks_never_solve_even; [vm_compute; reflexivity|reflexivity|exact Hi|exact Hs].
Defined.

(** X8.  Every 4x4 board [createShuffledPuzzle] returns for a nonnegative
    seed, other than the fallback board, can never be solved by clicking:
    no click sequence marks the game solved or shows the solved overlay. *)
Theorem createShuffledPuzzle_4_never_solved (seed m : Z) (taps : list Z) :
  0 <= seed -> grid (createShuffledPuzzle 4 seed) <> elems (fallback_grid 4) ->
  let '(st', calls) :=
    Game.clicks (Game.mkGame (Some (createShuffledPuzzle 4 seed)) false m) taps in
  Game.solved st' = false /\ ~ In Game.ShowSolvedOverlay calls.
Proof.
  intros Hseed Hf.
  destruct (createShuffledPuzzle_spec 4 seed ltac:(lia) Hseed) as [_ [Hs|Hs]];
    [|contradiction].
  apply clicks_unsolved; [reflexivity|reflexivity|apply created_inv; lia|exact Hs].
Qed.

Lemma createShuffledPuzzle_4_never_solved_witness :
  0 <= 20261016 /\ grid (createShuffledPuzzle 4 20261016) <> elems (fallback_grid 4)
  /\ (let '(st', calls) :=
        Game.clicks (Game.mkGame (Some (createShuffledPuzzle 4 20261016)) false 0)
          [3; 2; 6; 7] in
      Game.solved st' = false /\ ~ In Game.ShowSolvedOverlay calls).
Proof.
  assert (Hf : grid (createShuffledPuzzle 4 20261016) <> elems (fallback_grid 4))
    by (intros H; vm_compute in H; discriminate H).
  split; [lia|]; split; [exact Hf|].
  apply createShuffledPuzzle_4_never_solved; [lia|exact Hf].
Defined.

Section HintMove.
Import Hint.

Lemma hint_candidates_adjacent e n : hint_candidates e n = getAdjacentIndices e n.
Proof. reflexivity. Qed.

Lemma getNextMoveHint_in p t :
  getNextMoveHint p = Some t -> In t (getAdjacentIndices (emptyIndex p) (size p)).
Proof.
  unfold getNextMoveHint; intros H.
  destruct (hint_loop_some _ _ _ _ _ H) as [[Hb _]|[pre [post [s [Hc _]]]]];
    [discriminate|].
  rewrite <- hint_candidates_adjacent, Hc; apply in_or_app; right; left; reflexivity.
Qed.

(** A tile adjacent to the empty cell of a board satisfying the invariant
    is a move [makeMove] performs. *)
Lemma adjacent_move_some p t :
  0 < size p -> puzzle_inv p -> In t (getAdjacentIndices (emptyIndex p) (size p)) ->
  isValidMove p t = true /\ exists p', makeMove p t = Some p'.
Proof.
  intros Hn Hi Hin.
  pose proof Hi as [Hp He].
  pose proof (arr_get_of_some _ _ _ He) as Hr.
  rewrite (Permutation_length Hp), length_solvedGrid in Hr.
  apply (getAdjacentIndices_iff (size p) (emptyIndex p) t Hn ltac:(lia)) in Hin.
  pose proof Hin as Ht; apply orth_adjacent_iff in Ht; destruct Ht as [_ [Ht _]].
  rewrite orth_adjacent_sym in Hin.
  apply (getAdjacentIndices_iff (size p) t (emptyIndex p) Hn Ht), existsb_eqb_in in Hin.
  assert (Hv : isValidMove p t = true) by exact Hin.
  split; [exact Hv|].
  destruct (inv_cell_defined p t Hi Ht) as [tv Htv].
  unfold makeMove; rewrite Hv, Htv, He; simpl.
  eexists; reflexivity.
Qed.

End HintMove.

Section HintExtra.
Import Hint.

(** X9.  On a board satisfying the [PuzzleState] invariant, a tile the hint
    proposes is a valid move, and [makeMove] performs it. *)
Theorem getNextMoveHint_valid_move (p : PuzzleState) (t : Z) :
  0 < size p -> puzzle_inv p -> getNextMoveHint p = Some t ->
  isValidMove p t = true /\ exists p', makeMove p t = Some p'.
Proof.
  intros Hn Hi Hh; exact (adjacent_move_some p t Hn Hi (getNextMoveHint_in p t Hh)).
Qed.

Lemma getNextMoveHint_valid_move_witness :
  let p := mkPuzzle (elems (fallback_grid 3)) 7 3 in
  0 < size p /\ puzzle_inv p /\ getNextMoveHint p = Some 8
  /\ (isValidMove p 8 = true /\ exists p', makeMove p 8 = Some p').
Proof.
  intros p.
  assert (Hi : puzzle_inv p)
    by (split; [apply fallback_perm|vm_compute; reflexivity]).
  assert (Hh : getNextMoveHint p = Some 8) by (vm_compute; reflexivity).
  split; [simpl; lia|]; split; [exact Hi|]; split; [exact Hh|].
  apply getNextMoveHint_valid_move; [simpl; lia|exact Hi|exact Hh].
Defined.

End HintExtra.

(** * Further properties of the leaderboard *)

Section LeaderboardStore.
Import Leaderboard LeaderboardSpec.

Lemma Sorted_firstn {A} (R : A -> A -> Prop) n l : Sorted R l -> Sorted R (firstn n l).
Proof.
  intros H; revert n; induction H as [|a l Hs IH Hd]; intros [|n]; simpl; try constructor.
  - apply IH.
  - destruct Hd as [|b l' Hab]; destruct n; simpl; constructor; exact Hab.
Qed.

Lemma top_wf full : NoDup (map username full) -> wf_table (firstn 100 (sort full)).
Proof.
  intros Hnd; split; [apply Sorted_firstn, sort_sorted|split].
  - rewrite length_firstn; lia.
  - rewrite <- firstn_map; apply nodup_firstn.
    apply (Permutation_NoDup (Permutation_map username (Permutation_sym (sort_perm full)))).
    exact Hnd.
Qed.

Lemma in_top_in_full full x : In x (firstn 100 (sort full)) -> In x full.
Proof.
  intros Hx; apply (Permutation_in _ (sort_perm full)).
  rewrite <- (firstn_skipn 100 (sort full)); apply in_or_app; left; exact Hx.
Qed.

(** Where the rank the handler reports puts the submitted entry. *)
Lemma rank_position full entry :
  NoDup (map username full) -> In entry full ->
  let top := firstn 100 (sort full) in
  let rank := match find_index (username entry) top with
              | Some k => Z.of_nat k + 1 | None => 0 end in
  (rank = 0 /\ ~ In entry top)
  \/ (0 < rank /\ nth_error top (Z.to_nat (rank - 1)) = Some entry).
Proof.
  intros Hnd Hin top rank; unfold rank.
  destruct (find_index (username entry) top) as [k|] eqn:E.
  - right; destruct (find_index_some _ _ _ E) as [x [Hx Hu]].
    assert (x = entry) as <-
      by exact (nodup_map_inj username full x entry Hnd
                  (in_top_in_full full x (nth_error_In _ _ Hx)) Hin Hu).
    split; [lia|]. replace (Z.to_nat (Z.of_nat k + 1 - 1)) with k by lia; exact Hx.
  - left; split; [reflexivity|intros Ht].
    exact (proj1 (find_index_none _ _) E entry Ht eq_refl).
Qed.

(** The two outcomes of [submit] on a table with one entry per user. *)
Lemma submit_cases table entry :
  NoDup (map username table) ->
  match submit table entry with
  | (Some top, rank, _) =>
      exists full, NoDup (map username full) /\ In entry full
        /\ top = firstn 100 (sort full)
        /\ rank = match find_index (username entry) top with
                  | Some k => Z.of_nat k + 1 | None => 0 end
  | (None, rank, _) =>
      exists ex, In ex table /\ username ex = username entry
        /\ better entry ex = false /\ rank = count_better table ex + 1
  end.
Proof.
  intros Hnd; unfold submit.
  destruct (find_index (username entry) table) as [i|] eqn:Hf.
  - destruct (find_index_some _ _ _ Hf) as [ex [Hn Hu]].
    rewrite Hn.
    destruct (better entry ex) eqn:B.
    + exists (list_set table i entry).
      split; [rewrite (map_list_set_same username table i entry ex Hn Hu); exact Hnd|].
      split; [exact (in_list_set table i entry ex Hn)|split; reflexivity].
    + exists ex; split; [exact (nth_error_In _ _ Hn)|].
      split; [exact Hu|split; [exact B|reflexivity]].
  - exists (table ++ [entry]).
    split; [|split; [apply in_or_app; right; left; reflexivity|split; reflexivity]].
    rewrite map_app; simpl.
    apply (Permutation_NoDup (Permutation_cons_append _ _)).
    constructor; [|exact Hnd].
    intros Hin; apply in_map_iff in Hin; destruct Hin as [x [Hx Hin]].
    exact (proj1 (find_index_none _ _) Hf x Hin Hx).
Qed.

Lemma store_get_set s k k' v :
  store_get (store_set s k v) k' = if String.eqb k' k then Some v else store_get s k'.
Proof. reflexivity. Qed.

Lemma wf_store_table s key :
  wf_store s -> wf_table (match store_get s key with Some l => l | None => [] end).
Proof.
  intros Hw; destruct (store_get s key) as [l|] eqn:E; [exact (Hw _ _ E)|].
  split; [constructor|split; [simpl; lia|constructor]].
Qed.

End LeaderboardStore.

Section LeaderboardExtra.
Import Leaderboard LeaderboardSpec.


(** X11.  If every table in the store is sorted by [(time, moves)], holds
    at most 100 entries and one entry per user name, the same holds after
    any call of [api.post('/submit-score')]. *)
Theorem submit_score_handler_keeps_wf (s : store) (body : SubmitScoreRequest)
    (user : option string) (today : string) :
  wf_store s ->
  let '(_, s', _) := submit_score_handler s body user today in wf_store s'.
Proof.
  intros Hw; unfold submit_score_handler.
  destruct body as [[t|] [m|] [d|]]; cbn [req_time req_moves req_difficulty falsy orb];
    rewrite ?orb_true_r; try exact Hw.
  destruct (t =? 0), (m =? 0), (d =? 0); cbn [orb]; try exact Hw.
  destruct user as [u|]; [|exact Hw].
  pose proof (wf_store_table s (leaderboard_key today d) Hw) as [_ [_ Hnd]].
  pose proof (submit_cases _ (mkEntry u t m d today) Hnd) as Hc.
  match goal with |- context [submit ?a ?b] =>
    destruct (submit a b) as [[[top|] rank] o] end; [|exact Hw].
  destruct Hc as [full [Hnd' [_ [-> _]]]].
  intros k l; rewrite store_get_set.
  destruct (String.eqb k _); [intros H; injection H as <-; apply top_wf, Hnd'|apply Hw].
Qed.

Lemma submit_score_handler_keeps_wf_witness :
  wf_store []
  /\ (let '(_, s', _) :=
        submit_score_handler [] (mkReq (Some 100) (Some 10) (Some 3)) (Some "alice"%string)
          "2026-10-16" in wf_store s').
Proof.
  assert (Hw : wf_store []) by (intros k l H; discriminate H).
  split; [exact Hw|].
  exact (submit_score_handler_keeps_wf [] (mkReq (Some 100) (Some 10) (Some 3))
           (Some "alice"%string) "2026-10-16" Hw).
Defined.

(** X12.  On a well-formed store, after a submission with non-zero time
    and moves and a difficulty in {3,4,5}, [api.get('/leaderboard')] for
    today and that difficulty returns a well-formed table [l]. When the
    score was stored, the submitted entry is at position [rank] of [l]
    (counted from 1), or is absent from [l] when the rank is 0. When the
    existing score was kept, [l] holds the user's earlier entry, which the
    new one does not beat, and the rank is 1 + the number of entries of [l]
    strictly better than it. *)
Theorem submit_then_leaderboard (s : store) (u : string) (t m d : Z) (today : string) :
  wf_store s -> (d = 3 \/ d = 4 \/ d = 5) -> t <> 0 -> m <> 0 ->
  let entry := mkEntry u t m d today in
  let '(r, s', _) :=
    submit_score_handler s (mkReq (Some t) (Some m) (Some d)) (Some u) today in
  exists rank l, fst (leaderboard_handler s' today (Some d)) = Some l /\ wf_table l
  /\ ((r = Success rank "Score submitted successfully"
       /\ ((rank = 0 /\ ~ In entry l)
           \/ (0 < rank /\ nth_error l (Z.to_nat (rank - 1)) = Some entry)))
      \/ (r = Success rank "Your existing score is better"
          /\ exists ex, In ex l /\ username ex = u /\ ~ lex_lt entry ex
             /\ rank = count_better l ex + 1)).
Proof.
  intros Hw Hd Ht Hm entry.
  assert (Hdk : ((d =? 3) || (d =? 4) || (d =? 5)) = true)
    by (destruct Hd as [ -> | [ -> | -> ] ]; reflexivity).
  unfold submit_score_handler; cbn [req_time req_moves req_difficulty falsy].
  rewrite (proj2 (Z.eqb_neq t 0) Ht), (proj2 (Z.eqb_neq m 0) Hm),
    (proj2 (Z.eqb_neq d 0) ltac:(lia)); cbn [orb].
  pose proof (wf_store_table s (leaderboard_key today d) Hw) as Hwt.
  pose proof Hwt as [_ [_ Hnd]].
  pose proof (submit_cases _ entry Hnd) as Hc.
  unfold leaderboard_handler; rewrite Hdk; cbn [fst].
  fold entry.
  destruct (submit _ entry) as [[[top|] rank] o].
  - destruct Hc as [full [Hnd' [Hin [-> ->]]]].
    eexists; exists (firstn 100 (sort full)).
    rewrite store_get_set, String.eqb_refl.
    split; [reflexivity|]; split; [apply top_wf, Hnd'|].
    left; split; [reflexivity|].
    exact (rank_position full entry Hnd' Hin).
  - destruct Hc as [ex [Hin [Hu [Hb ->]]]].
    eexists; eexists; split; [reflexivity|]; split; [exact Hwt|].
    right; split; [reflexivity|].
    exists ex; split; [exact Hin|]; split; [exact Hu|]; split; [|reflexivity].
    intros Hlt; apply better_iff in Hlt; congruence.
Qed.

Lemma submit_then_leaderboard_witness :
  let s := [("leaderboard:2026-10-16:3"%string,
             [mkEntry "bob" 90 5 3 "2026-10-16"; mkEntry "alice" 100 5 3 "2026-10-16"])] in
  wf_store s /\ (3 = 3 \/ 3 = 4 \/ 3 = 5) /\ 80 <> 0 /\ 7 <> 0
  /\ (let entry := mkEntry "alice" 80 7 3 "2026-10-16" in
      let '(r, s', _) :=
        submit_score_handler s (mkReq (Some 80) (Some 7) (Some 3)) (Some "alice"%string)
          "2026-10-16" in
      exists rank l, fst (leaderboard_handler s' "2026-10-16" (Some 3)) = Some l
      /\ wf_table l
      /\ ((r = Success rank "Score submitted successfully"
           /\ ((rank = 0 /\ ~ In entry l)
               \/ (0 < rank /\ nth_error l (Z.to_nat (rank - 1)) = Some entry)))
          \/ (r = Success rank "Your existing score is better"
              /\ exists ex, In ex l /\ username ex = "alice"%string /\ ~ lex_lt entry ex
                 /\ rank = count_better l ex + 1))).
Proof.
  intros s.
  assert (Hw : wf_store s).
  { intros k l; unfold s; simpl.
    destruct (String.eqb k _); [|discriminate].
    intros H; injection H as <-.
    split; [repeat constructor; unfold lex_le; simpl; lia|].
    split; [simpl; lia|].
    simpl; constructor; [simpl; intros [H|[]]; discriminate H|].
    constructor; [intros []|constructor]. }
  split; [exact Hw|]; split; [left; reflexivity|]; split; [lia|]; split; [lia|].
  apply submit_then_leaderboard; [exact Hw|left; reflexivity|lia|lia].
Defined.

End LeaderboardExtra.

(** * Further properties of the daily scheduler *)

Section DailyExtra.
Import Daily.

Lemma to_int32_range z : - 2 ^ 31 <= to_int32 z < 2 ^ 31.
Proof.
  unfold to_int32; pose proof (Z.mod_pos_bound (z + 2 ^ 31) (2 ^ 32) ltac:(lia)); lia.
Qed.

Lemma hash_step_range h c : - 2 ^ 31 <= hash_step h c < 2 ^ 31.
Proof. unfold hash_step; rewrite Z.land_diag; apply to_int32_range. Qed.

Lemma hash_loop_range cs h :
  - 2 ^ 31 <= h < 2 ^ 31 -> - 2 ^ 31 <= hash_loop cs h < 2 ^ 31.
Proof.
  revert h; induction cs as [|c cs IH]; intros h Hh; [exact Hh|].
  apply IH, hash_step_range.
Qed.

Lemma hashString_range str : 0 <= hashString str <= 2 ^ 31.
Proof.
  unfold hashString; pose proof (hash_loop_range (char_codes str) 0 ltac:(lia)); lia.
Qed.

Lemma dget_dset s k k' v : dget (dset s k v) k' = if String.eqb k' k then Some v else dget s k'.
Proof. reflexivity. Qed.

(** X13.  [hashString] returns an integer in [0, 2^31] for every string,
    so the board [createShuffledPuzzle] builds from the daily seed, for each
    difficulty 3, 4 and 5, satisfies the [PuzzleState] invariant. *)
Theorem hashString_seed_puzzle_inv (today : string) (n : Z) :
  (n = 3 \/ n = 4 \/ n = 5) ->
  0 <= hashString today <= 2 ^ 31
  /\ puzzle_inv (createShuffledPuzzle n (hashString today)).
Proof.
  intros Hn; pose proof (hashString_range today) as Hr.
  split; [exact Hr|apply created_inv; [exact Hn|lia]].
Qed.

Lemma hashString_seed_puzzle_inv_witness :
  (4 = 3 \/ 4 = 4 \/ 4 = 5)
  /\ 0 <= hashString "2026-10-16" <= 2 ^ 31
  /\ puzzle_inv (createShuffledPuzzle 4 (hashString "2026-10-16")).
Proof.
  split; [right; left; reflexivity|].
  apply hashString_seed_puzzle_inv; right; left; reflexivity.
Defined.


(** X15.  After a successful [fetchDailyPuzzle], [api.get('/daily-state')]
    on the same day answers with the state stored under today's key, reading
    only that key. When the fetch wrote it, that state holds the image URL
    picked from the first hot post, its id, the seed [hashString today] and
    the date [today]; when today's key existed, the answer is that state. *)
Theorem fetch_then_daily_state (s : dstore) (today : string) (posts : list Post) :
  let '((ok, _), s1, _) := fetchDailyPuzzle s today posts in
  ok = true ->
  exists st, daily_state_handler s1 today = (DailyOk st, [DGet (daily_key today)])
    /\ (dget s (daily_key today) = None ->
        exists post rest, posts = post :: rest
          /\ pick_image_url post = Some (imageUrl st)
          /\ postId st = id post /\ shuffleSeed st = hashString today
          /\ date st = today)
    /\ (forall st0, dget s (daily_key today) = Some st0 -> st = st0).
Proof.
  unfold fetchDailyPuzzle, daily_state_handler.
  destruct (dget s (daily_key today)) as [st|] eqn:E.
  - intros _; exists st; rewrite E.
    split; [reflexivity|]; split; [discriminate|intros st0 H; injection H as <-; reflexivity].
  - destruct posts as [|post rest]; [discriminate|].
    destruct (pick_image_url post) as [u|] eqn:Hu; [|discriminate].
    destruct (truthy u); [|discriminate].
    intros _; exists (mkDaily u (id post) (hashString today) today).
    rewrite !dget_dset, String.eqb_refl.
    split; [destruct (String.eqb _ _); reflexivity|].
    split; [|discriminate].
    intros _; exists post, rest; split; [reflexivity|]; split; [exact Hu|].
    split; [reflexivity|split; reflexivity].
Qed.

End DailyExtra.

(** * Further properties of the counter endpoints *)

Section CounterExtra.
Import Counter.

Lemma run_count pid count calls :
  match run (Some pid) count calls with Some v => v | None => 0 end
  = match count with Some v => v | None => 0 end
    + Z.of_nat (length (filter (fun c => match c with Increment => true | Decrement => false end) calls))
    - Z.of_nat (length (filter (fun c => match c with Increment => false | Decrement => true end) calls)).
Proof.
  revert count; induction calls as [|c cs IH]; intros count;
    [simpl; destruct count; lia|].
  destruct c; cbn [run filter length]; rewrite IH; cbn [snd increment decrement]; unfold incrBy;
    rewrite ?Nat2Z.inj_succ; destruct count; lia.
Qed.

Lemma run_none count calls : run None count calls = count.
Proof. revert count; induction calls as [|[|] cs IH]; intros count; simpl; auto. Qed.

(** X16.  With a [postId] in the context, [/init] after any sequence of
    [/increment] and [/decrement] calls reports the stored count (0 when
    missing) plus the number of increments minus the number of decrements,
    and the user name (['anonymous'] when there is none); without a
    [postId] no call changes the stored count. *)
Theorem counter_init_after_calls (pid : string) (count : option Z) (calls : list call)
    (user : option string) :
  init (Some pid) (run (Some pid) count calls) user
  = InitOk pid
      (match count with Some v => v | None => 0 end
       + Z.of_nat (length (filter (fun c => match c with Increment => true | Decrement => false end) calls))
       - Z.of_nat (length (filter (fun c => match c with Increment => false | Decrement => true end) calls)))
      (match user with Some u => u | None => "anonymous"%string end)
  /\ run None count calls = count.
Proof.
  split; [|apply run_none].
  unfold init; rewrite <- (run_count pid); reflexivity.
Qed.

End CounterExtra.

(** * Further properties of the game client *)

Section GameExtra.
Import Game.

Lemma in_zseq n s : 0 <= s < n -> In s (zseq n).
Proof.
  intros Hs; unfold zseq; apply in_map_iff; exists (Z.to_nat s); split; [lia|].
  apply in_seq; lia.
Qed.

(** X17.  For an elapsed time of 0 to 5999 seconds, [formatTime] prints
    the minutes as two digits (zero-padded), a colon, and the seconds
    within the minute as two digits (zero-padded). *)
Theorem formatTime_mm_ss (s : Z) :
  0 <= s < 6000 ->
  formatTime s
  = String (Ascii.ascii_of_nat (48 + Z.to_nat (s / 600)))
      (String (Ascii.ascii_of_nat (48 + Z.to_nat (s / 60 mod 10)))
        (String ":"
          (String (Ascii.ascii_of_nat (48 + Z.to_nat (s mod 60 / 10)))
            (String (Ascii.ascii_of_nat (48 + Z.to_nat (s mod 10))) EmptyString)))).
Proof.
  intros Hs.
  assert (H : forallb (fun s => String.eqb (formatTime s)
      (String (Ascii.ascii_of_nat (48 + Z.to_nat (s / 600)))
        (String (Ascii.ascii_of_nat (48 + Z.to_nat (s / 60 mod 10)))
          (String ":"
            (String (Ascii.ascii_of_nat (48 + Z.to_nat (s mod 60 / 10)))
              (String (Ascii.ascii_of_nat (48 + Z.to_nat (s mod 10))) EmptyString))))))
      (zseq 6000) = true) by (vm_compute; reflexivity).
  rewrite forallb_forall in H.
  apply String.eqb_eq, H, in_zseq, Hs.
Qed.

Lemma formatTime_mm_ss_witness :
  0 <= 75 < 6000 /\ formatTime 75 = "01:15"%string.
Proof.
  split; [lia|].
  rewrite (formatTime_mm_ss 75) by lia; reflexivity.
Defined.

(** X19.  Over any sequence of clicks from a move count [m >= 0], the
    count grows by exactly the number of clicks that moved a tile (each of
    which renders the board or shows the solved overlay), and the timer is
    started at most once, and only when [m] was 0. *)
Theorem clicks_moves_and_timer (pz : option PuzzleState) (b : bool) (m : Z) (taps : list Z) :
  0 <= m ->
  let '(st', calls) := clicks (mkGame pz b m) taps in
  moves st' = m + Z.of_nat (length (filter (fun c => match c with
                 | RenderPuzzle | ShowSolvedOverlay => true | _ => false end) calls))
  /\ Z.of_nat (length (filter (fun c => match c with StartTimer => true | _ => false end) calls))
      <= (if m =? 0 then 1 else 0).
Proof.
  revert pz b m; induction taps as [|t ts IH]; intros pz b m Hm.
  - simpl; split; [lia|destruct (m =? 0); lia].
  - cbn [clicks]; unfold handleTileClick; cbn [puzzle solved moves].
    destruct pz as [p|];
      [|specialize (IH None b m Hm); destruct (clicks _ ts) as [g2 c2]; exact IH].
    destruct b;
      [specialize (IH (Some p) true m Hm); destruct (clicks _ ts) as [g2 c2]; exact IH|].
    destruct (makeMove p t) as [np|];
      [|specialize (IH (Some p) false m Hm); destruct (clicks _ ts) as [g2 c2]; exact IH].
    destruct (isSolved np);
      [specialize (IH (Some np) true (m + 1) ltac:(lia))
      |specialize (IH (Some np) false (m + 1) ltac:(lia))];
      destruct (clicks _ ts) as [g2 c2]; destruct IH as [H1 H2];
      rewrite !filter_app, !length_app;
      destruct (Z.eqb_spec (m + 1) 1), (Z.eqb_spec m 0), (Z.eqb_spec (m + 1) 0);
      simpl in *; lia.
Qed.

Lemma clicks_moves_and_timer_witness :
  0 <= 0
  /\ (let '(st', calls) :=
        clicks (mkGame (Some (mkPuzzle (solvedGrid 3) 8 3)) false 0) [7; 4; 5] in
      moves st' = 0 + Z.of_nat (length (filter (fun c => match c with
                     | RenderPuzzle | ShowSolvedOverlay => true | _ => false end) calls))
      /\ Z.of_nat (length (filter (fun c => match c with StartTimer => true | _ => false end) calls))
          <= (if 0 =? 0 then 1 else 0)).
Proof. split; [lia|apply clicks_moves_and_timer; lia]. Defined.

End GameExtra.
